(** * wenet context graph: a shallow embedding of
      runtime/core/decoder/context_graph.cc

    The file models the three routines of [wenet::ContextGraph]:
    - [SplitUTF8StringToWords], the greedy longest-match tokenizer,
    - [BuildContextGraph], which lays the phrases out as a weighted
      automaton with escape arcs and hands it to [fst::Determinize],
    - [GetNextState], the single-step lookup used by the decoder.

    Scores are C++ [float]s; they are modelled as IEEE-754 binary32 values
    with the operations of the Standard Library's [SpecFloat]. *)

From Stdlib Require Import String Ascii ZArith List Bool Lia.
From Stdlib Require Import Floats.SpecFloat.
Import ListNotations.
Local Open Scope Z_scope.

(** ** binary32 arithmetic *)

Definition float := spec_float.
Definition f32_prec : Z := 24.
Definition f32_emax : Z := 128.

Definition fadd : float -> float -> float := SFadd f32_prec f32_emax.
Definition fmul : float -> float -> float := SFmul f32_prec f32_emax.
Definition fneg : float -> float := SFopp.
Definition feqb : float -> float -> bool := SFeqb.

(** Conversion of an integer ([size_t] or [int]) to [float], round to
    nearest even. *)
Definition float_of_Z (z : Z) : float :=
  binary_normalize f32_prec f32_emax z 0 false.

Definition fzero : float := S754_zero false.

(** A float that is neither an infinity nor a NaN. *)
Definition is_finite (x : float) : bool :=
  match x with
  | S754_zero _ | S754_finite _ _ _ => true
  | _ => false
  end.

(** ** The automaton: fst::StdVectorFst over the tropical semiring *)

(** [fst::StdArc::Weight::One()] is 0.0f and [Zero()] is +infinity. *)
Definition Weight_One : float := S754_zero false.
Definition Weight_Zero : float := S754_infinity false.

Record StdArc := mkArc {
  ilabel : Z;
  olabel : Z;
  weight : float;
  nextstate : Z
}.

Record VectorState := mkState {
  final : float;
  arcs : list StdArc
}.

Record StdVectorFst := mkFst {
  fst_start : Z;
  states : list VectorState
}.

(** A freshly constructed [StdVectorFst]: no state, start [kNoStateId]. *)
Definition NewFst : StdVectorFst := mkFst (-1) [].

Definition NumStates (g : StdVectorFst) : Z := Z.of_nat (length (states g)).

(** State ids are C++ [int]s; an id outside [0, NumStates) names no state. *)
Definition state_at (g : StdVectorFst) (s : Z) : option VectorState :=
  if s <? 0 then None else nth_error (states g) (Z.to_nat s).

Definition arcs_of (g : StdVectorFst) (s : Z) : option (list StdArc) :=
  option_map arcs (state_at g s).

Definition Final (g : StdVectorFst) (s : Z) : option float :=
  option_map final (state_at g s).

Fixpoint alter_nth {A} (f : A -> A) (n : nat) (l : list A) : list A :=
  match l, n with
  | [], _ => []
  | x :: r, O => f x :: r
  | x :: r, S n' => x :: alter_nth f n' r
  end.

Definition alter_state (f : VectorState -> VectorState) (s : Z)
    (g : StdVectorFst) : StdVectorFst :=
  if s <? 0 then g
  else mkFst (fst_start g) (alter_nth f (Z.to_nat s) (states g)).

(** [AddState] appends a non-final state without arcs and returns its id. *)
Definition AddState (g : StdVectorFst) : StdVectorFst * Z :=
  (mkFst (fst_start g) (states g ++ [mkState Weight_Zero []]), NumStates g).

Definition SetStart (g : StdVectorFst) (s : Z) : StdVectorFst :=
  mkFst s (states g).

Definition SetFinal (g : StdVectorFst) (s : Z) (w : float) : StdVectorFst :=
  alter_state (fun st => mkState w (arcs st)) s g.

(** [AddArc] pushes the arc at the back of the state's arc vector.  The
    builder only names states it has created; on another id (undefined in
    OpenFst) the model leaves the automaton as it is. *)
Definition AddArc (g : StdVectorFst) (s : Z) (a : StdArc) : StdVectorFst :=
  alter_state (fun st => mkState (final st) (arcs st ++ [a])) s g.

(** ** GetNextState *)

(** The three out-parameters [float* score], [bool* is_start_boundary],
    [bool* is_end_boundary]: the value each cell holds. *)
Record OutParams := mkOut {
  score : float;
  is_start_boundary : bool;
  is_end_boundary : bool
}.

(** The body shared by both loops once an arc matches: the boundary
    writes.  [None] when [Final] is asked about a state that is not
    there. *)
Definition mark_boundaries (g : StdVectorFst) (cur_state : Z) (arc : StdArc)
    (out : OutParams) : option OutParams :=
  match Final g (nextstate arc) with
  | None => None
  | Some fw =>
      Some (mkOut (score out)
              (if cur_state =? 0 then true else is_start_boundary out)
              (if feqb fw Weight_One then true else is_end_boundary out))
  end.

(** First loop (lines 94-111): the arcs of [cur_state] in order.  Returns
    the value of [next_state] after the loop with the cells. *)
Fixpoint scan_cur (g : StdVectorFst) (l : list StdArc) (cur_state word_id : Z)
    (out : OutParams) : option (Z * OutParams) :=
  match l with
  | [] => Some (0, out)
  | arc :: rest =>
      if ilabel arc =? 0 then
        scan_cur g rest cur_state word_id
          (mkOut (weight arc) (is_start_boundary out) (is_end_boundary out))
      else if ilabel arc =? word_id then
        match mark_boundaries g cur_state arc
                (mkOut (weight arc) (is_start_boundary out)
                   (is_end_boundary out)) with
        | None => None
        | Some out' => Some (nextstate arc, out')
        end
      else scan_cur g rest cur_state word_id out
  end.

(** Second loop (lines 115-129): the arcs of state 0 in order. *)
Fixpoint scan_zero (g : StdVectorFst) (l : list StdArc) (cur_state word_id : Z)
    (out : OutParams) : option (Z * OutParams) :=
  match l with
  | [] => Some (0, out)
  | arc :: rest =>
      if ilabel arc =? word_id then
        match mark_boundaries g cur_state arc
                (mkOut (fadd (score out) (weight arc))
                   (is_start_boundary out) (is_end_boundary out)) with
        | None => None
        | Some out' => Some (nextstate arc, out')
        end
      else scan_zero g rest cur_state word_id out
  end.

(** [graph_] is a smart pointer: [None] is the null pointer.  The result is
    [None] when the C++ code has no defined result: [*graph_] on a null
    pointer, or an arc iterator or [Final] on a state that does not
    exist. *)
Definition GetNextState (graph_ : option StdVectorFst) (cur_state word_id : Z)
    (out : OutParams) : option (Z * OutParams) :=
  match graph_ with
  | None => None
  | Some g =>
      match arcs_of g cur_state with
      | None => None
      | Some l =>
          match scan_cur g l cur_state word_id out with
          | None => None
          | Some (next_state, out1) =>
              if negb (next_state =? 0) then Some (next_state, out1)
              else
                match arcs_of g 0 with
                | None => None
                | Some l0 => scan_zero g l0 cur_state word_id out1
                end
          end
      end
  end.

(** ** The vocabulary: fst::SymbolTable *)

(** Modelled from the spec: [fst::SymbolTable] is OpenFst's and not part of
    this source file.  The specification describes it as a mapping from
    token string to a unique integer id with add-if-absent and with
    lookup-by-string returning a sentinel (-1, [kNoSymbol]) for an unknown
    token.  New symbols get the next available key. *)
Record SymbolTable := mkSymbolTable {
  symbols : list (string * Z);
  available_key : Z
}.

Definition lookup_symbol (t : SymbolTable) (s : string) : option (string * Z) :=
  find (fun p => String.eqb (fst p) s) (symbols t).

Definition Find (t : SymbolTable) (s : string) : Z :=
  match lookup_symbol t s with
  | Some p => snd p
  | None => -1
  end.

Definition AddSymbol (t : SymbolTable) (s : string) : SymbolTable * Z :=
  match lookup_symbol t s with
  | Some p => (t, snd p)
  | None =>
      (mkSymbolTable (symbols t ++ [(s, available_key t)]) (available_key t + 1),
       available_key t)
  end.

(** ** The string helpers of utils/string.h *)

(** The helpers [Trim], [SplitUTF8StringToChars], [IsAlpha],
    [UTF8StringLength] and the constant [kSpaceSymbol] are declared in
    utils/string.h, which is not part of this source file.  The routines
    below take them as a parameter, so that what is proved of the routines
    holds whatever the helpers compute. *)
Record StringUtils := mkStringUtils {
  Trim : string -> string;
  SplitUTF8StringToChars : string -> list string;
  IsAlpha : string -> bool;
  UTF8StringLength : string -> Z;
  kSpaceSymbol : string
}.

(** [s[0]] of a [std::string]: the first byte, and the terminating NUL when
    the string is empty. *)
Definition head_byte (s : string) : ascii :=
  match s with
  | EmptyString => zero
  | String c _ => c
  end.

(** [word += chars[i]] for [i] in [start, end). *)
Definition join_chars (chars : list string) (start e : nat) : string :=
  String.concat "" (firstn (e - start) (skipn start chars)).

(** ** SplitUTF8StringToWords *)

(** The variables of the two nested loops. *)
Record TokState := mkTok {
  tk_start : nat;
  tk_beginning : bool;
  tk_no_oov : bool;
  tk_words : list string
}.

Section Tokenizer.
Variable U : StringUtils.
Variable symbol_table : SymbolTable.

(** The inner loop [for (end = ...; end > start; --end)] started at
    [end = e]: [continue] moves on to [e - 1], [break] returns. *)
Fixpoint scan_end (chars : list string) (e : nat) (st : TokState) : TokState :=
  match e with
  | O => st
  | S e' =>
      if (tk_start st <? e)%nat then
        let word := join_chars chars (tk_start st) e in
        if String.eqb word " " then
          scan_end chars e'
            (mkTok e true (tk_no_oov st) (tk_words st))
        else
          let word :=
            if IsAlpha U word && tk_beginning st
            then (kSpaceSymbol U ++ word)%string else word in
          if negb (Find symbol_table word =? -1) then
            scan_end chars e'
              (mkTok e false (tk_no_oov st) (tk_words st ++ [word]))
          else if (e =? tk_start st + 1)%nat then
            if Ascii.eqb (head_byte word) (head_byte (kSpaceSymbol U)) then
              mkTok (tk_start st) false (tk_no_oov st)
                (tk_words st ++ [kSpaceSymbol U])
            else
              scan_end chars e'
                (mkTok (tk_start st + 1) (tk_beginning st) false (tk_words st))
          else scan_end chars e' st
      else st
  end.

(** The outer loop [for (start = 0; start < chars.size();)].  It has no
    increment of its own, so the model runs it on fuel: [None] says that
    [fuel] iterations did not reach [start >= chars.size()]. *)
Fixpoint scan_start (fuel : nat) (chars : list string) (st : TokState)
    : option TokState :=
  match fuel with
  | O => None
  | S fuel' =>
      if (tk_start st <? length chars)%nat then
        scan_start fuel' chars (scan_end chars (length chars) st)
      else Some st
  end.

(** The result is the returned [no_oov] with the contents of [*words],
    which the routine appends to. *)
Definition SplitUTF8StringToWords (fuel : nat) (str : string)
    (words : list string) : option (bool * list string) :=
  let chars := SplitUTF8StringToChars U (Trim U str) in
  match scan_start fuel chars (mkTok 0 true true words) with
  | None => None
  | Some st => Some (tk_no_oov st, tk_words st)
  end.
End Tokenizer.

(** ** BuildContextGraph *)

(** Modelled from the spec: [ContextConfig] is declared in
    decoder/context_graph.h, which is not part of this source file.  The
    specification lists its four numeric fields; the two limits are [int]s
    and the two scores are [float]s. *)
Record ContextConfig := mkConfig {
  max_context_length : Z;
  max_contexts : Z;
  context_score : float;
  incremental_context_score : float
}.

(** The members of [ContextGraph] that the routines read and write. *)
Record ContextGraph := mkContextGraph {
  config_ : ContextConfig;
  graph_ : option StdVectorFst;
  symbol_table_ : option SymbolTable;
  start_tag_id_ : Z;
  end_tag_id_ : Z
}.

(** An [int] compared with a [size_t] is converted to [size_t]. *)
Definition to_size_t (z : Z) : Z := z mod 2 ^ 64.

(** [context.size() > config_.max_context_length]: the size in bytes. *)
Definition too_long (cfg : ContextConfig) (context : string) : bool :=
  Z.of_nat (String.length context) >? to_size_t (max_context_length cfg).

Section Builder.
Variable U : StringUtils.
Variable Determinize : StdVectorFst -> StdVectorFst.
Variable cfg : ContextConfig.
Variable symbol_table : SymbolTable.

(** [i * incremental_context_score + context_score]. *)
Definition base_score (i : nat) : float :=
  fadd (fmul (float_of_Z (Z.of_nat i)) (incremental_context_score cfg))
       (context_score cfg).

Definition alpha_or_boundary (word : string) : bool :=
  IsAlpha U word || Ascii.eqb (head_byte word) (head_byte (kSpaceSymbol U)).

(** Lines 68-73. *)
Definition token_score (i : nat) (word : string) : float :=
  let score := fmul (base_score i) (float_of_Z (UTF8StringLength U word)) in
  if alpha_or_boundary word then base_score i else score.

(** The loop over [words] (lines 66-84), at index [i]. *)
Fixpoint AddWords (ws : list string) (i : nat) (prev_state : Z)
    (escape_score : float) (ofst : StdVectorFst) : StdVectorFst :=
  match ws with
  | [] => ofst
  | w :: rest =>
      let word_id := Find symbol_table w in
      let score := token_score i w in
      let '(ofst1, next_state) :=
        match rest with
        | [] => (ofst, 0)
        | _ :: _ => AddState ofst
        end in
      let ofst2 := AddArc ofst1 prev_state (mkArc word_id word_id score next_state) in
      let ofst3 :=
        if (0 <? i)%nat
        then AddArc ofst2 prev_state (mkArc 0 0 (fneg escape_score) 0)
        else ofst2 in
      AddWords rest (S i) next_state (fadd escape_score score) ofst3
  end.

Definition AddPhrase (ofst : StdVectorFst) (ws : list string) : StdVectorFst :=
  AddWords ws 0 0 fzero ofst.

(** The loop over [query_contexts] (lines 48-85).  [None] when the
    tokenizer does not return within [fuel]. *)
Fixpoint BuildLoop (fuel : nat) (contexts : list string) (count : Z)
    (ofst : StdVectorFst) : option StdVectorFst :=
  match contexts with
  | [] => Some ofst
  | context :: rest =>
      if too_long cfg context then BuildLoop fuel rest count ofst
      else
        let count := count + 1 in
        if count >? max_contexts cfg then Some ofst
        else
          match SplitUTF8StringToWords U symbol_table fuel (Trim U context) [] with
          | None => None
          | Some (no_oov, words) =>
              if negb no_oov then BuildLoop fuel rest count ofst
              else BuildLoop fuel rest count (AddPhrase ofst words)
          end
  end.

(** Lines 40-44: state 0, start and final. *)
Definition InitialFst : StdVectorFst :=
  let '(ofst, start_state) := AddState NewFst in
  SetFinal (SetStart ofst start_state) start_state Weight_One.

(** The nondeterministic automaton handed to [fst::Determinize]. *)
Definition BuildOfst (fuel : nat) (contexts : list string) : option StdVectorFst :=
  BuildLoop fuel contexts 0 InitialFst.
End Builder.

(** [BuildContextGraph]: the two tags are added to the shared symbol table
    first; the result is the object with the table as it is afterwards.
    The table is passed as a value: the [CHECK] of line 31 aborts on a null
    pointer before anything else happens.  [None] when the tokenizer does
    not return within [fuel] on one of the phrases. *)
Definition BuildContextGraph (U : StringUtils)
    (Determinize : StdVectorFst -> StdVectorFst) (fuel : nat)
    (self : ContextGraph) (query_contexts : list string)
    (symbol_table : SymbolTable) : option (ContextGraph * SymbolTable) :=
  let '(t1, start_tag) := AddSymbol symbol_table "<context>" in
  let '(t2, end_tag) := AddSymbol t1 "</context>" in
  match query_contexts with
  | [] =>
      Some (mkContextGraph (config_ self) None (Some t2) start_tag end_tag, t2)
  | _ :: _ =>
      match BuildOfst U (config_ self) t2 fuel query_contexts with
      | None => None
      | Some ofst =>
          Some (mkContextGraph (config_ self) (Some (Determinize ofst))
                  (Some t2) start_tag end_tag, t2)
      end
  end.

(** ** A concrete instance of the helpers *)

Module WenetUtils.

Definition is_space (c : ascii) : bool :=
  let n := nat_of_ascii c in
  (n =? 32)%nat || ((9 <=? n)%nat && (n <=? 13)%nat).

Fixpoint ltrim (s : string) : string :=
  match s with
  | EmptyString => EmptyString
  | String c r => if is_space c then ltrim r else s
  end.

Fixpoint rtrim (s : string) : string :=
  match s with
  | EmptyString => EmptyString
  | String c r =>
      match rtrim r with
      | EmptyString => if is_space c then EmptyString else String c EmptyString
      | r' => String c r'
      end
  end.

(** Modelled from the spec: utils/string.h's [Trim] is not part of this
    source file; the specification speaks of the trimmed phrase string:
    white space is removed at both ends. *)
Definition Trim (s : string) : string := rtrim (ltrim s).

(** A UTF-8 continuation byte, 10xxxxxx. *)
Definition is_continuation (c : ascii) : bool :=
  let n := nat_of_ascii c in (128 <=? n)%nat && (n <? 192)%nat.

(** The pending continuation bytes at the front, and the codepoints after
    them. *)
Fixpoint split_aux (s : string) : string * list string :=
  match s with
  | EmptyString => (EmptyString, [])
  | String c r =>
      let '(pending, chars) := split_aux r in
      if is_continuation c then (String c pending, chars)
      else (EmptyString, String c pending :: chars)
  end.

(** Modelled from the spec: utils/string.h's [SplitUTF8StringToChars] is
    not part of this source file; the specification calls the units
    codepoints (codepoint-aware, not byte-aware): a leading byte with the
    continuation bytes that follow it. *)
Definition SplitUTF8StringToChars (s : string) : list string :=
  let '(pending, chars) := split_aux s in
  match pending with
  | EmptyString => chars
  | _ => pending :: chars
  end.

(** Modelled from the spec: utils/string.h's [UTF8StringLength] is not
    part of this source file; the specification calls it the codepoint
    length of a token. *)
Definition UTF8StringLength (s : string) : Z :=
  Z.of_nat (length (SplitUTF8StringToChars s)).

Definition is_alpha (c : ascii) : bool :=
  let n := nat_of_ascii c in
  ((65 <=? n)%nat && (n <=? 90)%nat) || ((97 <=? n)%nat && (n <=? 122)%nat).

(** Modelled from the spec: utils/string.h's [IsAlpha] is not part of this
    source file; the specification speaks of a substring classified as
    alphabetic: every byte is an ASCII letter. *)
Fixpoint IsAlpha (s : string) : bool :=
  match s with
  | EmptyString => true
  | String c r => is_alpha c && IsAlpha r
  end.

(** Modelled from the spec: utils/string.h's [kSpaceSymbol] is not part of
    this source file; the specification's scenarios write the reserved
    leading-space marker as U+2581, in UTF-8 the bytes E2 96 81. *)
Definition kSpaceSymbol : string :=
  String (ascii_of_nat 226) (String (ascii_of_nat 150)
    (String (ascii_of_nat 129) EmptyString)).

Definition utils : StringUtils :=
  mkStringUtils Trim SplitUTF8StringToChars IsAlpha UTF8StringLength
    kSpaceSymbol.

End WenetUtils.

(** ** Inputs used in the examples *)

Module Examples.

(** U+20AC, the euro sign: E2 82 AC. *)
Definition euro : string :=
  String (ascii_of_nat 226) (String (ascii_of_nat 130)
    (String (ascii_of_nat 172) EmptyString)).

(** U+00E9, e with acute accent: C3 A9. *)
Definition e_acute : string :=
  String (ascii_of_nat 195) (String (ascii_of_nat 169) EmptyString).

(** The marked word-initial form of "a". *)
Definition marked_a : string := (WenetUtils.kSpaceSymbol ++ "a")%string.

(** A vocabulary with the blank at id 0 and three tokens. *)
Definition vocab : SymbolTable :=
  mkSymbolTable
    [("<blank>"%string, 0); (marked_a, 1); (e_acute, 2);
     ((WenetUtils.kSpaceSymbol ++ "b")%string, 3)] 4.

(** context_score 3.0 and incremental_context_score 1.0. *)
Definition config (len contexts : Z) : ContextConfig :=
  mkConfig len contexts (float_of_Z 3) (float_of_Z 1).

Definition out0 : OutParams := mkOut fzero false false.

(** context_score 3e38, a finite float (twice it is beyond the largest
    float), and incremental_context_score 0.0. *)
Definition huge_config : ContextConfig :=
  mkConfig 100 10 (float_of_Z (3 * 10 ^ 38)) fzero.

End Examples.

(** ** Notions used in the statements *)

(** The baseline the first loop leaves in [*score] when no labeled arc
    matches: the weight of the last escape arc, or the entry value. *)
Definition escape_baseline (l : list StdArc) (entry : float) : float :=
  fold_left (fun acc a => if ilabel a =? 0 then weight a else acc) l entry.

(** The weight of the last escape arc (label 0) of a state, if it has
    one. *)
Definition escape_weight (l : list StdArc) : option float :=
  fold_left (fun acc a => if ilabel a =? 0 then Some (weight a) else acc) l None.

(** An arc the first loop takes for [word_id]. *)
Definition labeled_match (word_id : Z) (a : StdArc) : bool :=
  negb (ilabel a =? 0) && (ilabel a =? word_id).

(** One of the three out-parameter cells. *)
Inductive cell := CScore | CStart | CEnd.

Definition same_cell (c : cell) (o1 o2 : OutParams) : Prop :=
  match c with
  | CScore => score o1 = score o2
  | CStart => is_start_boundary o1 = is_start_boundary o2
  | CEnd => is_end_boundary o1 = is_end_boundary o2
  end.

(** Two runs of a loop on entry values that agree on a cell: both fail or
    both return, with the same [next_state] and cells that agree again. *)
Definition agree_on (c : cell) (r1 r2 : option (Z * OutParams)) : Prop :=
  match r1, r2 with
  | Some (n1, o1), Some (n2, o2) => n1 = n2 /\ same_cell c o1 o2
  | None, None => True
  | _, _ => False
  end.

(** Arcs labeled [labels] lead from [s] to [t]. *)
Fixpoint has_path (g : StdVectorFst) (s : Z) (labels : list Z) (t : Z) : Prop :=
  match labels with
  | [] => s = t
  | l :: rest =>
      exists arcs_s a,
        arcs_of g s = Some arcs_s /\ In a arcs_s /\ ilabel a = l /\
        has_path g (nextstate a) rest t
  end.

(** [g'] keeps what [g] has: the states other than 0 as they are, and the
    arcs of state 0 in front of its own. *)
Definition extends (g g' : StdVectorFst) : Prop :=
  NumStates g <= NumStates g' /\
  (forall s, 0 < s < NumStates g -> state_at g' s = state_at g s) /\
  (forall l, arcs_of g 0 = Some l -> exists extra, arcs_of g' 0 = Some (l ++ extra)).

Section Selection.
Variable U : StringUtils.
Variable cfg : ContextConfig.
Variable symbol_table : SymbolTable.
Variable fuel : nat.

(** The tokenizer call of line 57. *)
Definition words_of (context : string) : option (bool * list string) :=
  SplitUTF8StringToWords U symbol_table fuel (Trim U context) [].

Definition resolved_words (context : string) : list (list string) :=
  match words_of context with
  | Some (true, ws) => [ws]
  | _ => []
  end.

(** The phrases that pass the size check of line 49. *)
Definition within_length (contexts : list string) : list string :=
  filter (fun c => negb (too_long cfg c)) contexts.

(** The phrases that are counted and tokenized: the first [max_contexts]
    of those within the size limit. *)
Definition counted (contexts : list string) : list string :=
  firstn (Z.to_nat (max_contexts cfg)) (within_length contexts).

(** The token sequences laid out in the automaton. *)
Definition accepted_words (contexts : list string) : list (list string) :=
  flat_map resolved_words (counted contexts).

(** The selection in the specification's words: a phrase is accepted when
    it is within the size limit and fully resolved, and the first
    [max_contexts] accepted phrases are represented. *)
Definition is_accepted (context : string) : bool :=
  negb (too_long cfg context) &&
  match words_of context with
  | Some (true, _) => true
  | _ => false
  end.

Definition first_accepted (contexts : list string) : list string :=
  firstn (Z.to_nat (max_contexts cfg)) (filter is_accepted contexts).

(** A token sequence is represented when its labels lead from the start
    state back to it. *)
Definition represented (g : StdVectorFst) (ws : list string) : Prop :=
  has_path g 0 (map (Find symbol_table) ws) 0.

(** The scores of the tokens from index [i] on. *)
Fixpoint scores_from (i : nat) (ws : list string) : list float :=
  match ws with
  | [] => []
  | w :: rest => token_score U cfg i w :: scores_from (S i) rest
  end.

(** The sum of the first [k] scores as [escape_score] accumulates it:
    from 0.0f, left to right. *)
Definition prefix_total (ws : list string) (k : nat) : float :=
  fold_left fadd (firstn k (scores_from 0 ws)) fzero.

Definition label_arc (i : nat) (w : string) (next : Z) : StdArc :=
  mkArc (Find symbol_table w) (Find symbol_table w) (token_score U cfg i w) next.

Definition escape_arc (escape_score : float) : StdArc :=
  mkArc 0 0 (fneg escape_score) 0.

(** The layout of the tokens [ws], from index [i] and state [prev] on, in
    the automaton [g]: the first token leaves state 0, every later one
    leaves a state that carries this token's arc and the escape arc and
    nothing else, and the last arc returns to state 0. *)
Fixpoint laid (g : StdVectorFst) (ws : list string) (i : nat) (prev : Z)
    (esc : float) : Prop :=
  match ws with
  | [] => True
  | w :: rest =>
      exists next,
        (rest = [] -> next = 0) /\
        match i with
        | O => prev = 0 /\
               exists l, arcs_of g prev = Some l /\ In (label_arc i w next) l
        | S _ => 0 < prev < NumStates g /\
                 arcs_of g prev = Some [label_arc i w next; escape_arc esc]
        end /\
        laid g rest (S i) next (fadd esc (token_score U cfg i w))
  end.

(** The state of affairs after the body of the loop over [words]. *)
Definition next_of (rest : list string) (g : StdVectorFst) : Z :=
  match rest with
  | [] => 0
  | _ :: _ => NumStates g
  end.

Definition after_token (w : string) (rest : list string) (i : nat) (prev : Z)
    (esc : float) (g : StdVectorFst) : StdVectorFst :=
  let g1 := match rest with [] => g | _ :: _ => fst (AddState g) end in
  let g2 := AddArc g1 prev (label_arc i w (next_of rest g)) in
  if (0 <? i)%nat then AddArc g2 prev (escape_arc esc) else g2.

(** The precondition of the loop at index [i]: at the first token
    [prev_state] is state 0, afterwards it is a state just added. *)
Definition ready (g : StdVectorFst) (i : nat) (prev : Z) : Prop :=
  match i with
  | O => prev = 0 /\ exists x, state_at g 0 = Some x
  | S _ => 0 < prev /\ state_at g prev = Some (mkState Weight_Zero [])
  end.

(** The tokenizer returns on every phrase that is counted. *)
Definition tokenizer_returns (contexts : list string) : Prop :=
  forall c, In c (counted contexts) -> words_of c <> None.

(** A position at which one pass of the inner loop, entered with
    [beginning] false, comes back with the same [start] and [beginning]
    still false: the outer loop never gets past it. *)
Definition stuck_at (chars : list string) (s : nat) : Prop :=
  forall st, tk_start st = s -> tk_beginning st = false ->
    tk_start (scan_end U symbol_table chars (length chars) st) = s /\
    tk_beginning (scan_end U symbol_table chars (length chars) st) = false.

(** The inner loop has left through the [break] of line 171: the single
    codepoint at [start], marked when it is alphabetic at a word beginning,
    is not in the vocabulary and begins with the marker's first byte. *)
Definition broke (chars : list string) (st : TokState) : Prop :=
  let c := join_chars chars (tk_start st) (tk_start st + 1) in
  let word := if IsAlpha U c && tk_beginning st
              then (kSpaceSymbol U ++ c)%string else c in
  Find symbol_table word = -1 /\
  head_byte word = head_byte (kSpaceSymbol U).

(** No codepoint that is out of vocabulary begins with the first byte of
    [kSpaceSymbol]. *)
Definition no_marker_lead (chars : list string) : Prop :=
  forall c, In c chars ->
    Find symbol_table c <> -1 \/ head_byte c <> head_byte (kSpaceSymbol U).

(** The number of passes of the outer loop that are still possible. *)
Definition passes_left (chars : list string) (st : TokState) : nat :=
  2 * (length chars - tk_start st) + (if tk_beginning st then 1 else 0).
End Selection.

(** ** Notions used in the further properties *)

(** An arc that leads to a state of the automaton. *)
Definition valid_arc (g : StdVectorFst) (a : StdArc) : Prop :=
  0 <= nextstate a < NumStates g.

(** A state other than the start state, once its phrase is laid out: not
    final, with one arc for a token and, behind it, one arc labeled 0 that
    leads to state 0. *)
Definition interior_state (g : StdVectorFst) (x : VectorState) : Prop :=
  final x = Weight_Zero /\
  exists a w, arcs x = [a; mkArc 0 0 w 0] /\ valid_arc g a.

Definition start_state_ok (g : StdVectorFst) (x : VectorState) : Prop :=
  final x = Weight_One /\ Forall (valid_arc g) (arcs x).

(** The shape the builder keeps.  [hole] is the state just added whose arcs
    are still to come ([prev_state] inside a phrase), or 0 between
    phrases. *)
Definition chain_shaped (g : StdVectorFst) (hole : Z) : Prop :=
  (exists x0, state_at g 0 = Some x0 /\ start_state_ok g x0) /\
  (forall s x, 0 < s -> s <> hole -> state_at g s = Some x -> interior_state g x) /\
  (0 < hole -> state_at g hole = Some (mkState Weight_Zero [])).

(** The states the phrases add: one per token but the last. *)
Definition interior_count (wss : list (list string)) : Z :=
  fold_right (fun ws n => Z.of_nat (pred (length ws)) + n) 0 wss.

Section Further.
Variable U : StringUtils.
Variable cfg : ContextConfig.
Variable symbol_table : SymbolTable.

(** The label of the arc a phrase adds at state 0. *)
Definition first_label (ws : list string) : list Z :=
  match ws with
  | [] => []
  | w :: _ => [Find symbol_table w]
  end.

(** Every codepoint is a space or, on its own, a vocabulary entry. *)
Definition covered_chars (chars : list string) : Prop :=
  forall c, In c chars -> c = " "%string \/ Find symbol_table c <> -1.

(** [covers chars p ts ok]: the tokens [ts] account, in order, for the
    codepoints before position [p]; [ok] is false once a codepoint has been
    skipped. *)
Inductive covers (chars : list string) : nat -> list string -> bool -> Prop :=
| cov_start : covers chars 0 [] true
| cov_space p e ts ok :
    covers chars p ts ok -> (p < e <= length chars)%nat ->
    join_chars chars p e = " "%string ->
    covers chars e ts ok
| cov_plain p e ts ok :
    covers chars p ts ok -> (p < e <= length chars)%nat ->
    Find symbol_table (join_chars chars p e) <> -1 ->
    covers chars e (ts ++ [join_chars chars p e]) ok
| cov_marked p e ts ok :
    covers chars p ts ok -> (p < e <= length chars)%nat ->
    IsAlpha U (join_chars chars p e) = true ->
    Find symbol_table (kSpaceSymbol U ++ join_chars chars p e)%string <> -1 ->
    covers chars e (ts ++ [(kSpaceSymbol U ++ join_chars chars p e)%string]) ok
| cov_marker p ts ok :
    covers chars p ts ok -> (p < length chars)%nat ->
    covers chars p (ts ++ [kSpaceSymbol U]) ok
| cov_skip p ts ok :
    covers chars p ts ok -> (p < length chars)%nat ->
    Find symbol_table (join_chars chars p (p + 1)) = -1 ->
    covers chars (p + 1) ts false.

(** The invariant of the tokenizer's loops: the words appended so far
    account for the codepoints before [start], and [no_oov] tells whether
    one was skipped. *)
Definition covered_so_far (chars words : list string) (st : TokState) : Prop :=
  exists ts, tk_words st = words ++ ts /\
             covers chars (tk_start st) ts (tk_no_oov st).

(** Looking up the tokens [ws] one after the other, from index [i] and
    state [s] on, follows the phrase: each step returns the token's score,
    the first sets the start flag, the last sets the end flag and returns
    to state 0, and no other flag is written. *)
Fixpoint walks (g : StdVectorFst) (ws : list string) (i : nat) (s : Z) : Prop :=
  match ws with
  | [] => s = 0
  | w :: rest =>
      exists next,
        (forall out,
           GetNextState (Some g) s (Find symbol_table w) out =
           Some (next,
                 mkOut (token_score U cfg i w)
                   (match i with O => true | S _ => is_start_boundary out end)
                   (match rest with [] => true | _ :: _ => is_end_boundary out end))) /\
        walks g rest (S i) next
  end.
End Further.

(** * GetNextState *)

Lemma escape_baseline_app l1 l2 entry :
  escape_baseline (l1 ++ l2) entry = escape_baseline l2 (escape_baseline l1 entry).
Proof. unfold escape_baseline. apply fold_left_app. Qed.

Lemma escape_baseline_none l entry :
  Forall (fun a => ilabel a <> 0) l -> escape_baseline l entry = entry.
Proof.
  unfold escape_baseline. intros H. revert entry.
  induction H as [|a l Ha _ IH]; intros entry; simpl; [reflexivity|].
  apply Z.eqb_neq in Ha. rewrite Ha. apply IH.
Qed.

(** When no labeled arc matches, the first loop leaves [next_state] at 0,
    the baseline in [*score] and the flags alone. *)
Lemma scan_cur_no_match g l s t out :
  Forall (fun a => labeled_match t a = false) l ->
  scan_cur g l s t out =
    Some (0, mkOut (escape_baseline l (score out))
               (is_start_boundary out) (is_end_boundary out)).
Proof.
  intros H. revert out.
  induction H as [|a l Ha _ IH]; intros out.
  - destruct out; reflexivity.
  - unfold labeled_match in Ha. cbn [scan_cur].
    destruct (ilabel a =? 0) eqn:E0.
    + rewrite IH. unfold escape_baseline. cbn. rewrite E0. reflexivity.
    + cbn in Ha. rewrite Ha, IH. unfold escape_baseline. cbn.
      rewrite E0. reflexivity.
Qed.

(** The first labeled arc that matches is taken, whatever escape arcs came
    before it. *)
Lemma scan_cur_first_match g pre a post s t out fw :
  Forall (fun b => labeled_match t b = false) pre ->
  labeled_match t a = true ->
  Final g (nextstate a) = Some fw ->
  scan_cur g (pre ++ a :: post) s t out =
    Some (nextstate a,
          mkOut (weight a)
            (if s =? 0 then true else is_start_boundary out)
            (if feqb fw Weight_One then true else is_end_boundary out)).
Proof.
  intros Hpre Ha Hf. revert out.
  induction Hpre as [|b pre Hb _ IH]; intros out.
  - unfold labeled_match in Ha. apply andb_prop in Ha. destruct Ha as [H0 Ht].
    apply negb_true_iff in H0. cbn [app scan_cur].
    rewrite H0, Ht. unfold mark_boundaries. rewrite Hf. reflexivity.
  - unfold labeled_match in Hb. cbn [app scan_cur].
    destruct (ilabel b =? 0) eqn:E0.
    + rewrite IH. reflexivity.
    + cbn in Hb. rewrite Hb. apply IH.
Qed.

Lemma scan_zero_no_match g l s t out :
  Forall (fun a => ilabel a <> t) l -> scan_zero g l s t out = Some (0, out).
Proof.
  intros H. induction H as [|a l Ha _ IH]; [reflexivity|].
  cbn [scan_zero]. apply Z.eqb_neq in Ha. rewrite Ha. exact IH.
Qed.

Lemma scan_zero_first_match g pre a post s t out fw :
  Forall (fun b => ilabel b <> t) pre ->
  ilabel a = t ->
  Final g (nextstate a) = Some fw ->
  scan_zero g (pre ++ a :: post) s t out =
    Some (nextstate a,
          mkOut (fadd (score out) (weight a))
            (if s =? 0 then true else is_start_boundary out)
            (if feqb fw Weight_One then true else is_end_boundary out)).
Proof.
  intros Hpre Ha Hf.
  induction Hpre as [|b pre Hb _ IH].
  - cbn [app scan_zero]. apply Z.eqb_eq in Ha. rewrite Ha.
    unfold mark_boundaries. rewrite Hf. reflexivity.
  - cbn [app scan_zero]. apply Z.eqb_neq in Hb. rewrite Hb. exact IH.
Qed.

(** X14: the lookup takes the first labeled arc of cur_state that matches
    word_id and stops there when the arc leads to a state other than 0:
    next_state is its destination, score_delta its weight alone,
    is_start_boundary is set when cur_state is 0 and is_end_boundary when
    the destination is final with weight One. *)
Lemma GetNextState_match_elsewhere g pre a post s t out fw :
  arcs_of g s = Some (pre ++ a :: post) ->
  Forall (fun b => labeled_match t b = false) pre ->
  labeled_match t a = true ->
  Final g (nextstate a) = Some fw ->
  nextstate a <> 0 ->
  GetNextState (Some g) s t out =
    Some (nextstate a,
          mkOut (weight a)
            (if s =? 0 then true else is_start_boundary out)
            (if feqb fw Weight_One then true else is_end_boundary out)).
Proof.
  intros Hl Hpre Ha Hf Hn. unfold GetNextState. rewrite Hl.
  rewrite (scan_cur_first_match g pre a post s t out fw Hpre Ha Hf).
  apply Z.eqb_neq in Hn. rewrite Hn. reflexivity.
Qed.

(** X15: when the matching arc leads to state 0, [next_state] is 0 after
    the first loop, as it is when nothing matched: state 0 is scanned for
    the token again, and an arc found there is taken as well; its weight is
    added to the first arc's and its destination is returned. *)
Lemma GetNextState_match_into_start g pre a post pre0 b post0 s t out fw fw0 :
  arcs_of g s = Some (pre ++ a :: post) ->
  Forall (fun c => labeled_match t c = false) pre ->
  labeled_match t a = true ->
  nextstate a = 0 ->
  Final g 0 = Some fw ->
  arcs_of g 0 = Some (pre0 ++ b :: post0) ->
  Forall (fun c => ilabel c <> t) pre0 ->
  ilabel b = t ->
  Final g (nextstate b) = Some fw0 ->
  GetNextState (Some g) s t out =
    Some (nextstate b,
          mkOut (fadd (weight a) (weight b))
            (if s =? 0 then true else is_start_boundary out)
            (if feqb fw0 Weight_One then true
             else if feqb fw Weight_One then true else is_end_boundary out)).
Proof.
  intros Hl Hpre Ha Hn Hf H0 Hpre0 Hb Hf0. unfold GetNextState. rewrite Hl.
  rewrite <- Hn in Hf.
  rewrite (scan_cur_first_match g pre a post s t out fw Hpre Ha Hf).
  rewrite Hn. cbn [negb Z.eqb]. rewrite H0.
  rewrite (scan_zero_first_match g pre0 b post0 s t _ fw0 Hpre0 Hb Hf0).
  cbn. destruct (s =? 0); reflexivity.
Qed.

Lemma mark_boundaries_cells c g s a o1 o2 :
  same_cell c o1 o2 ->
  match mark_boundaries g s a o1, mark_boundaries g s a o2 with
  | Some r1, Some r2 => same_cell c r1 r2
  | None, None => True
  | _, _ => False
  end.
Proof.
  intros H. unfold mark_boundaries. destruct (Final g (nextstate a)); [|exact I].
  destruct c; cbn in *; try rewrite H; reflexivity.
Qed.

Lemma scan_cur_cells c g l s t o1 o2 :
  same_cell c o1 o2 ->
  agree_on c (scan_cur g l s t o1) (scan_cur g l s t o2).
Proof.
  revert o1 o2. induction l as [|a l IH]; intros o1 o2 H.
  - cbn. auto.
  - cbn [scan_cur]. destruct (ilabel a =? 0).
    + apply IH. destruct c; cbn in *; auto.
    + destruct (ilabel a =? t); [|apply IH; exact H].
      pose proof (mark_boundaries_cells c g s a
        (mkOut (weight a) (is_start_boundary o1) (is_end_boundary o1))
        (mkOut (weight a) (is_start_boundary o2) (is_end_boundary o2))) as M.
      destruct (mark_boundaries g s a _), (mark_boundaries g s a _);
        cbn; try (apply M; destruct c; cbn in *; auto); auto.
      split; [reflexivity|]. apply M. destruct c; cbn in *; auto.
Qed.

Lemma scan_zero_cells c g l s t o1 o2 :
  same_cell c o1 o2 ->
  agree_on c (scan_zero g l s t o1) (scan_zero g l s t o2).
Proof.
  intros H. induction l as [|a l IH].
  - cbn. auto.
  - cbn [scan_zero]. destruct (ilabel a =? t); [|exact IH].
    pose proof (mark_boundaries_cells c g s a
      (mkOut (fadd (score o1) (weight a)) (is_start_boundary o1) (is_end_boundary o1))
      (mkOut (fadd (score o2) (weight a)) (is_start_boundary o2) (is_end_boundary o2))) as M.
    assert (Hc : same_cell c
      (mkOut (fadd (score o1) (weight a)) (is_start_boundary o1) (is_end_boundary o1))
      (mkOut (fadd (score o2) (weight a)) (is_start_boundary o2) (is_end_boundary o2))).
    { destruct c; cbn in *; try rewrite H; auto. }
    specialize (M Hc).
    destruct (mark_boundaries g s a _), (mark_boundaries g s a _); cbn; auto.
Qed.

Lemma GetNextState_cells c graph s t o1 o2 :
  same_cell c o1 o2 ->
  agree_on c (GetNextState graph s t o1) (GetNextState graph s t o2).
Proof.
  intros H. unfold GetNextState. destruct graph as [g|]; [|exact I].
  destruct (arcs_of g s) as [l|]; [|exact I].
  pose proof (scan_cur_cells c g l s t o1 o2 H) as A.
  destruct (scan_cur g l s t o1) as [[n1 r1]|], (scan_cur g l s t o2) as [[n2 r2]|];
    cbn in A; try contradiction; [|exact I].
  destruct A as [<- A]. destruct (negb (n1 =? 0)); [cbn; auto|].
  destruct (arcs_of g 0) as [l0|]; [|exact I].
  apply scan_zero_cells. exact A.
Qed.

(** What a loop may do to the cells: a flag is set to true or left alone,
    and [*score] is left alone unless an arc of the stated kind is there. *)
Lemma mark_boundaries_writes g s a o r :
  mark_boundaries g s a o = Some r ->
  score r = score o /\
  (is_start_boundary r = true \/ is_start_boundary r = is_start_boundary o) /\
  (is_end_boundary r = true \/ is_end_boundary r = is_end_boundary o).
Proof.
  unfold mark_boundaries. destruct (Final g (nextstate a)) as [fw|]; [|discriminate].
  intros [= <-]. cbn. split; [reflexivity|].
  split; [destruct (s =? 0)|destruct (feqb fw Weight_One)]; auto.
Qed.

Lemma scan_cur_writes g l s t out n r :
  scan_cur g l s t out = Some (n, r) ->
  (is_start_boundary r = true \/ is_start_boundary r = is_start_boundary out) /\
  (is_end_boundary r = true \/ is_end_boundary r = is_end_boundary out) /\
  (score r = score out \/ exists a, In a l /\ (ilabel a = 0 \/ ilabel a = t)).
Proof.
  revert out. induction l as [|a l IH]; intros out H.
  - cbn in H. injection H as <- <-. auto.
  - cbn [scan_cur] in H. destruct (ilabel a =? 0) eqn:E0.
    + apply Z.eqb_eq in E0. apply IH in H. cbn in H.
      destruct H as (Hs & He & _). repeat split; auto.
      right. exists a. split; [left; reflexivity | left; exact E0].
    + destruct (ilabel a =? t) eqn:Et.
      * apply Z.eqb_eq in Et.
        destruct (mark_boundaries g s a _) as [r'|] eqn:M; [|discriminate].
        injection H as <- <-. apply mark_boundaries_writes in M. cbn in M.
        destruct M as (_ & Hs & He). repeat split; auto.
        right. exists a. split; [left; reflexivity | right; exact Et].
      * apply IH in H. destruct H as (Hs & He & [Hk | (b & Hb & Hl)]);
          repeat split; auto.
        right. exists b. split; [right; exact Hb | exact Hl].
Qed.

Lemma scan_zero_writes g l s t out n r :
  scan_zero g l s t out = Some (n, r) ->
  (is_start_boundary r = true \/ is_start_boundary r = is_start_boundary out) /\
  (is_end_boundary r = true \/ is_end_boundary r = is_end_boundary out) /\
  (score r = score out \/ exists a, In a l /\ ilabel a = t).
Proof.
  induction l as [|a l IH]; intros H.
  - cbn in H. injection H as <- <-. auto.
  - cbn [scan_zero] in H. destruct (ilabel a =? t) eqn:Et.
    + apply Z.eqb_eq in Et.
      destruct (mark_boundaries g s a _) as [r'|] eqn:M; [|discriminate].
      injection H as <- <-. apply mark_boundaries_writes in M. cbn in M.
      destruct M as (_ & Hs & He). repeat split; auto.
      right. exists a. split; [left; reflexivity | exact Et].
    + apply IH in H. destruct H as (Hs & He & [Hk | (b & Hb & Hl)]);
        repeat split; auto.
      right. exists b. split; [right; exact Hb | exact Hl].
Qed.

(** The loops return when every arc they may take leads to a state that is
    there. *)
Lemma scan_cur_returns g l s t out :
  Forall (fun a => Final g (nextstate a) <> None) l ->
  exists n r, scan_cur g l s t out = Some (n, r).
Proof.
  intros H. revert out. induction H as [|a l Ha _ IH]; intros out.
  - cbn. eauto.
  - cbn [scan_cur]. destruct (ilabel a =? 0); [apply IH|].
    destruct (ilabel a =? t); [|apply IH].
    unfold mark_boundaries. destruct (Final g (nextstate a)); [eauto|congruence].
Qed.

Lemma scan_zero_returns g l s t out :
  Forall (fun a => Final g (nextstate a) <> None) l ->
  exists n r, scan_zero g l s t out = Some (n, r).
Proof.
  intros H. induction H as [|a l Ha _ IH].
  - cbn. eauto.
  - cbn [scan_zero]. destruct (ilabel a =? t); [|apply IH].
    unfold mark_boundaries. destruct (Final g (nextstate a)); [eauto|congruence].
Qed.

Lemma flag_trans (b0 b1 b2 : bool) :
  (b1 = true \/ b1 = b0) -> (b2 = true \/ b2 = b1) -> b2 = true \/ b2 = b0.
Proof. intros [?|?] [?|?]; subst; auto. Qed.

Lemma scan_cur_next_state g l s t o1 o2 :
  option_map fst (scan_cur g l s t o1) = option_map fst (scan_cur g l s t o2).
Proof.
  revert o1 o2. induction l as [|a l IH]; intros o1 o2; [reflexivity|].
  cbn [scan_cur]. destruct (ilabel a =? 0); [apply IH|].
  destruct (ilabel a =? t); [|apply IH].
  unfold mark_boundaries. destruct (Final g (nextstate a)); reflexivity.
Qed.

Lemma scan_zero_next_state g l s t o1 o2 :
  option_map fst (scan_zero g l s t o1) = option_map fst (scan_zero g l s t o2).
Proof.
  induction l as [|a l IH]; [reflexivity|].
  cbn [scan_zero]. destruct (ilabel a =? t); [|apply IH].
  unfold mark_boundaries. destruct (Final g (nextstate a)); reflexivity.
Qed.

Lemma GetNextState_next_state graph s t o1 o2 :
  option_map fst (GetNextState graph s t o1) =
  option_map fst (GetNextState graph s t o2).
Proof.
  unfold GetNextState. destruct graph as [g|]; [|reflexivity].
  destruct (arcs_of g s) as [l|]; [|reflexivity].
  pose proof (scan_cur_next_state g l s t o1 o2) as A.
  destruct (scan_cur g l s t o1) as [[n1 r1]|], (scan_cur g l s t o2) as [[n2 r2]|];
    cbn in A; try discriminate; [|reflexivity].
  injection A as <-. destruct (negb (n1 =? 0)); [reflexivity|].
  destruct (arcs_of g 0); [apply scan_zero_next_state | reflexivity].
Qed.

(** ** C1 *)

(** C1, as stated, fails: after [BuildContextGraph] with an empty phrase
    list [graph_] is the null pointer (an automaton built before is
    released), and [GetNextState] dereferences it: the lookup has no
    result. *)
Lemma lookup_after_empty_build_undefined :
  option_map (fun r => GetNextState (graph_ (fst r)) 0 1 Examples.out0)
    (BuildContextGraph WenetUtils.utils (fun g => g) 10
       (mkContextGraph (Examples.config 100 10)
          (Some (mkFst 0 [mkState Weight_One []])) None 0 0)
       [] Examples.vocab)
  = Some None.
Proof. reflexivity. Qed.

(** C1, amended: on an automaton in which neither [cur_state] nor state 0
    has an arc (such as the one-state automaton built when no phrase
    contributes an arc), [GetNextState] returns next_state 0 and leaves the
    score and both flags as they were passed in: (0, 0, false, false) for a
    caller that passes 0, false, false. *)
Theorem lookup_on_arcless_automaton g cur_state word_id out :
  arcs_of g cur_state = Some [] ->
  arcs_of g 0 = Some [] ->
  GetNextState (Some g) cur_state word_id out = Some (0, out) /\
  GetNextState (Some g) cur_state word_id (mkOut fzero false false)
    = Some (0, mkOut fzero false false).
Proof.
  intros H H0. unfold GetNextState. rewrite H, H0. cbn. auto.
Qed.

Lemma lookup_on_arcless_automaton_witness :
  arcs_of (InitialFst) 0 = Some [] /\
  GetNextState (Some InitialFst) 0 7 (mkOut fzero false false)
    = Some (0, mkOut fzero false false).
Proof.
  split; [reflexivity|].
  apply (lookup_on_arcless_automaton InitialFst 0 7 (mkOut fzero false false));
    reflexivity.
Defined.

(** ** C2 *)

(** C2, evaluated where the code departs from it: for the one-token phrase
    "a" the automaton has the single arc 0 --1/3.0--> 0.  The lookup at
    state 0 takes that arc, finds [next_state] equal to 0 and scans state 0
    once more: the arc's weight is added a second time, and the score is
    6.0 where the arc's weight alone is 3.0. *)
Theorem single_token_phrase_scored_twice :
  BuildOfst WenetUtils.utils (Examples.config 100 10) Examples.vocab 10 ["a"%string]
    = Some (mkFst 0 [mkState Weight_One [mkArc 1 1 (float_of_Z 3) 0]]) /\
  GetNextState
    (BuildOfst WenetUtils.utils (Examples.config 100 10) Examples.vocab 10 ["a"%string])
    0 1 Examples.out0
    = Some (0, mkOut (float_of_Z 6) true true) /\
  float_of_Z 6 <> float_of_Z 3.
Proof.
  split; [reflexivity|]. split; [reflexivity|]. discriminate.
Qed.

(** The same path in the automaton of the phrase "a a": at state 1 the arc
    1 --1/4.0--> 0 matches, and the scan of state 0 then takes
    0 --1/3.0--> 1: the lookup returns state 1 with score 7.0 and the end
    flag set. *)
Lemma phrase_end_restarts_phrase :
  arcs_of (mkFst 0
      [mkState Weight_One [mkArc 1 1 (float_of_Z 3) 1];
       mkState Weight_Zero [mkArc 1 1 (float_of_Z 4) 0;
                            mkArc 0 0 (fneg (float_of_Z 3)) 0]]) 1
    = Some [mkArc 1 1 (float_of_Z 4) 0; mkArc 0 0 (fneg (float_of_Z 3)) 0] /\
  BuildOfst WenetUtils.utils (Examples.config 100 10) Examples.vocab 10 ["a a"%string]
    = Some (mkFst 0
      [mkState Weight_One [mkArc 1 1 (float_of_Z 3) 1];
       mkState Weight_Zero [mkArc 1 1 (float_of_Z 4) 0;
                            mkArc 0 0 (fneg (float_of_Z 3)) 0]]) /\
  GetNextState
    (BuildOfst WenetUtils.utils (Examples.config 100 10) Examples.vocab 10 ["a a"%string])
    1 1 Examples.out0
    = Some (1, mkOut (float_of_Z 7) false true).
Proof. repeat split; reflexivity. Qed.

(** ** C4 *)

(** C4, as stated, fails: on the automaton built from a phrase list whose
    only phrase is out of vocabulary, two lookups with the same state and
    token differ when the out-parameters hold different values on entry. *)
Lemma lookup_depends_on_entry_values :
  GetNextState
    (BuildOfst WenetUtils.utils (Examples.config 100 10) Examples.vocab 10 ["?"%string])
    0 1 (mkOut fzero false false)
  <>
  GetNextState
    (BuildOfst WenetUtils.utils (Examples.config 100 10) Examples.vocab 10 ["?"%string])
    0 1 (mkOut (float_of_Z 1) true true).
Proof. vm_compute. discriminate. Qed.

(** C4, amended: for a fixed automaton, two calls with the same state and
    token yield the same next_state (and fail together) whatever the
    out-parameters hold on entry, and each of score_delta,
    is_start_boundary and is_end_boundary is the same in both whenever
    that out-parameter held the same value on entry. *)
Theorem lookup_determined_cellwise graph cur_state word_id o1 o2 :
  option_map fst (GetNextState graph cur_state word_id o1) =
  option_map fst (GetNextState graph cur_state word_id o2) /\
  forall c, same_cell c o1 o2 ->
    agree_on c (GetNextState graph cur_state word_id o1)
               (GetNextState graph cur_state word_id o2).
Proof.
  split; [apply GetNextState_next_state|].
  intros c H. apply GetNextState_cells. exact H.
Qed.

Lemma lookup_determined_cellwise_witness :
  same_cell CScore (mkOut fzero false false) (mkOut fzero true true) /\
  agree_on CScore
    (GetNextState (Some InitialFst) 0 1 (mkOut fzero false false))
    (GetNextState (Some InitialFst) 0 1 (mkOut fzero true true)).
Proof.
  split; [reflexivity|].
  apply (proj2 (lookup_determined_cellwise (Some InitialFst) 0 1
                  (mkOut fzero false false) (mkOut fzero true true)) CScore).
  reflexivity.
Defined.

(** ** C5 *)

(** C5, as stated, fails: in the automaton of the phrase "a b", state 1 has
    no arc for the token of "a" and state 0 has one.  The lookup at state 1
    takes the arc of state 0, and is_start_boundary is still false: the
    second loop sets it only when [cur_state] is 0. *)
Lemma fallback_match_leaves_start_flag :
  GetNextState
    (BuildOfst WenetUtils.utils (Examples.config 100 10) Examples.vocab 10 ["a b"%string])
    1 1 Examples.out0
  = Some (1, mkOut fzero false false).
Proof. reflexivity. Qed.

(** C5, amended: whenever the scan at cur_state finds no labeled arc
    matching word_id but the scan of state 0 finds one, GetNextState
    returns that arc's destination, sets score_delta to the escape baseline
    plus that arc's weight, and sets is_end_boundary to true when the
    destination is accepting (leaving it as passed in otherwise);
    is_start_boundary is set only if cur_state is 0, which for a token id
    other than 0 cannot be the case here, so that it keeps the value passed
    in. *)
Theorem fallback_match_result g cur_state word_id out l pre a post fw :
  arcs_of g cur_state = Some l ->
  Forall (fun b => labeled_match word_id b = false) l ->
  arcs_of g 0 = Some (pre ++ a :: post) ->
  Forall (fun b => ilabel b <> word_id) pre ->
  ilabel a = word_id ->
  Final g (nextstate a) = Some fw ->
  exists r,
    GetNextState (Some g) cur_state word_id out = Some (nextstate a, r) /\
    score r = fadd (escape_baseline l (score out)) (weight a) /\
    is_end_boundary r = (feqb fw Weight_One || is_end_boundary out) /\
    is_start_boundary r = ((cur_state =? 0) || is_start_boundary out) /\
    (word_id <> 0 ->
     cur_state <> 0 /\ is_start_boundary r = is_start_boundary out).
Proof.
  intros Hl Hno H0 Hpre Ha Hf.
  assert (Hs : word_id <> 0 -> cur_state <> 0).
  { intros Hw ->. rewrite H0 in Hl. injection Hl as <-.
    apply Forall_app in Hno. destruct Hno as [_ Hno].
    apply Forall_inv in Hno. unfold labeled_match in Hno.
    rewrite Ha, Z.eqb_refl in Hno.
    apply Z.eqb_neq in Hw. rewrite Hw in Hno. discriminate. }
  eexists. split.
  - unfold GetNextState. rewrite Hl, (scan_cur_no_match g l _ _ out Hno).
    cbn [negb Z.eqb]. rewrite H0.
    apply (scan_zero_first_match g pre a post cur_state word_id _ fw Hpre Ha Hf).
  - cbn. split; [reflexivity|].
    split; [destruct (feqb fw Weight_One); reflexivity|].
    split; [destruct (cur_state =? 0); reflexivity|].
    intros Hw. split; [apply Hs, Hw|].
    apply Hs, Z.eqb_neq in Hw. rewrite Hw. reflexivity.
Qed.

Lemma fallback_match_result_witness :
  exists r,
    GetNextState
      (Some (mkFst 0
         [mkState Weight_One [mkArc 1 1 (float_of_Z 3) 1];
          mkState Weight_Zero [mkArc 3 3 (float_of_Z 4) 0;
                               mkArc 0 0 (fneg (float_of_Z 3)) 0]]))
      1 1 Examples.out0
    = Some (1, r) /\
    score r = fadd (fneg (float_of_Z 3)) (float_of_Z 3) /\
    is_start_boundary r = false.
Proof.
  destruct (fallback_match_result
    (mkFst 0
       [mkState Weight_One [mkArc 1 1 (float_of_Z 3) 1];
        mkState Weight_Zero [mkArc 3 3 (float_of_Z 4) 0;
                             mkArc 0 0 (fneg (float_of_Z 3)) 0]])
    1 1 Examples.out0
    [mkArc 3 3 (float_of_Z 4) 0; mkArc 0 0 (fneg (float_of_Z 3)) 0]
    [] (mkArc 1 1 (float_of_Z 3) 1) [] Weight_Zero)
    as (r & Hr & Hsc & _ & _ & Hst).
  - reflexivity.
  - repeat constructor.
  - reflexivity.
  - constructor.
  - reflexivity.
  - reflexivity.
  - exists r. split; [exact Hr|]. split; [exact Hsc|].
    apply Hst. discriminate.
Defined.

(** ** C10 *)

(** C10: on an automaton whose arcs at cur_state and at state 0 lead to
    states that exist, GetNextState returns, and it writes a flag only to
    set it to true; the score keeps the caller's value unless cur_state has
    an escape arc or an arc labeled word_id, or state 0 has an arc labeled
    word_id; and when there is no such arc at all, next_state is 0 and all
    three out-parameters keep the values the caller passed in. *)
Theorem lookup_frame g cur_state word_id out l l0 :
  arcs_of g cur_state = Some l ->
  arcs_of g 0 = Some l0 ->
  Forall (fun a => Final g (nextstate a) <> None) l ->
  Forall (fun a => Final g (nextstate a) <> None) l0 ->
  exists n r,
    GetNextState (Some g) cur_state word_id out = Some (n, r) /\
    (is_start_boundary r = true \/ is_start_boundary r = is_start_boundary out) /\
    (is_end_boundary r = true \/ is_end_boundary r = is_end_boundary out) /\
    (score r = score out \/
     (exists a, In a l /\ (ilabel a = 0 \/ ilabel a = word_id)) \/
     (exists a, In a l0 /\ ilabel a = word_id)) /\
    (Forall (fun a => ilabel a <> 0 /\ ilabel a <> word_id) l ->
     Forall (fun a => ilabel a <> word_id) l0 ->
     n = 0 /\ r = out).
Proof.
  intros Hl H0 Wl W0. unfold GetNextState. rewrite Hl, H0.
  destruct (scan_cur_returns g l cur_state word_id out Wl) as (n1 & r1 & E1).
  rewrite E1.
  pose proof (scan_cur_writes g l cur_state word_id out n1 r1 E1) as (S1 & F1 & K1).
  assert (Keep : Forall (fun a => ilabel a <> 0 /\ ilabel a <> word_id) l ->
                 n1 = 0 /\ r1 = out).
  { intros Hn.
    assert (Hm : Forall (fun a => labeled_match word_id a = false) l).
    { eapply Forall_impl; [|exact Hn]. intros a [_ Ha]. unfold labeled_match.
      apply Z.eqb_neq in Ha. rewrite Ha. apply andb_false_r. }
    rewrite (scan_cur_no_match g l _ _ out Hm) in E1.
    rewrite escape_baseline_none in E1.
    - destruct out. injection E1 as <- <-. auto.
    - eapply Forall_impl; [|exact Hn]. intros a [Ha _]. exact Ha. }
  destruct (negb (n1 =? 0)) eqn:En.
  - exists n1, r1. split; [reflexivity|].
    split; [exact S1|]. split; [exact F1|].
    split; [destruct K1 as [?|?]; auto|].
    intros Hn _. apply Keep, Hn.
  - destruct (scan_zero_returns g l0 cur_state word_id r1 W0) as (n2 & r2 & E2).
    exists n2, r2. split; [exact E2|].
    pose proof (scan_zero_writes g l0 cur_state word_id r1 n2 r2 E2) as (S2 & F2 & K2).
    split; [eapply flag_trans; eassumption|].
    split; [eapply flag_trans; eassumption|].
    split.
    + destruct K2 as [K2|K2]; [|auto].
      destruct K1 as [K1|K1]; [left; congruence | auto].
    + intros Hn Hz. destruct (Keep Hn) as [-> ->].
      rewrite (scan_zero_no_match g l0 _ _ out Hz) in E2.
      injection E2 as <- <-. auto.
Qed.

Lemma lookup_frame_witness :
  exists n r,
    GetNextState
      (Some (mkFst 0
         [mkState Weight_One [mkArc 1 1 (float_of_Z 3) 1];
          mkState Weight_Zero [mkArc 3 3 (float_of_Z 4) 0]]))
      1 5 (mkOut (float_of_Z 2) false true) = Some (n, r) /\
    n = 0 /\ r = mkOut (float_of_Z 2) false true.
Proof.
  destruct (lookup_frame
    (mkFst 0
       [mkState Weight_One [mkArc 1 1 (float_of_Z 3) 1];
        mkState Weight_Zero [mkArc 3 3 (float_of_Z 4) 0]])
    1 5 (mkOut (float_of_Z 2) false true)
    [mkArc 3 3 (float_of_Z 4) 0] [mkArc 1 1 (float_of_Z 3) 1])
    as (n & r & E & _ & _ & _ & K).
  - reflexivity.
  - reflexivity.
  - repeat constructor; discriminate.
  - repeat constructor; discriminate.
  - exists n, r. split; [exact E|]. apply K.
    + repeat constructor; discriminate.
    + repeat constructor; discriminate.
Defined.

(** * SplitUTF8StringToWords *)

Section TokenizerFacts.
Variable U : StringUtils.
Variable symbol_table : SymbolTable.

(** More fuel does not change a result. *)
Lemma scan_start_fuel_mono fuel k chars st r :
  scan_start U symbol_table fuel chars st = Some r ->
  scan_start U symbol_table (fuel + k) chars st = Some r.
Proof.
  revert st. induction fuel as [|fuel IH]; intros st H; [discriminate|].
  cbn [scan_start Nat.add] in *.
  destruct (tk_start st <? length chars)%nat; [apply IH; exact H | exact H].
Qed.

Lemma scan_start_stuck chars s :
  stuck_at U symbol_table chars s -> (s < length chars)%nat ->
  forall fuel st, tk_start st = s -> tk_beginning st = false ->
    scan_start U symbol_table fuel chars st = None.
Proof.
  intros Hstuck Hs fuel. induction fuel as [|fuel IH]; intros st H1 H2.
  - reflexivity.
  - cbn [scan_start]. rewrite H1.
    apply Nat.ltb_lt in Hs. rewrite Hs.
    destruct (Hstuck st H1 H2) as [A B]. apply IH; assumption.
Qed.
End TokenizerFacts.

Section TokenizerTermination.
Variable U : StringUtils.
Variable symbol_table : SymbolTable.

Abbreviation inner := (scan_end U symbol_table).
Abbreviation outer := (scan_start U symbol_table).

Lemma scan_end_done chars e st :
  (e <= tk_start st)%nat -> inner chars e st = st.
Proof.
  intros H. destruct e as [|e]; [reflexivity|]. cbn [scan_end].
  assert (E : (tk_start st <? S e)%nat = false) by (apply Nat.ltb_ge; lia).
  rewrite E. reflexivity.
Qed.

(** One pass of the inner loop either advances [start] or leaves through
    the [break], with [beginning] cleared. *)
Lemma scan_end_cases chars e st :
  (tk_start st < e)%nat ->
  (tk_start st < tk_start (inner chars e st) <= e)%nat \/
  (tk_start (inner chars e st) = tk_start st /\
   tk_beginning (inner chars e st) = false /\
   broke U symbol_table chars st).
Proof.
  induction e as [|e IH]; intros H; [lia|].
  cbn [scan_end]. assert (E : (tk_start st <? S e)%nat = true) by (apply Nat.ltb_lt; lia).
  rewrite E.
  destruct (String.eqb (join_chars chars (tk_start st) (S e)) " ").
  { rewrite scan_end_done by (cbn; lia). cbn. left. lia. }
  destruct (negb (Find symbol_table _ =? -1)) eqn:Ef.
  { rewrite scan_end_done by (cbn; lia). cbn. left. lia. }
  apply negb_false_iff, Z.eqb_eq in Ef.
  destruct (S e =? tk_start st + 1)%nat eqn:E1.
  - apply Nat.eqb_eq in E1.
    destruct (Ascii.eqb (head_byte _) (head_byte (kSpaceSymbol U))) eqn:Eh.
    + right. cbn. split; [reflexivity|]. split; [reflexivity|].
      apply Ascii.eqb_eq in Eh. unfold broke. cbv zeta.
      rewrite <- E1. split; assumption.
    + rewrite scan_end_done by (cbn; lia). cbn. left. lia.
  - apply Nat.eqb_neq in E1. destruct IH as [A | A]; [lia | left; lia | right; exact A].
Qed.

Lemma join_chars_single chars s c :
  nth_error chars s = Some c -> join_chars chars s (s + 1) = c.
Proof.
  intros H. unfold join_chars.
  replace (s + 1 - s)%nat with 1%nat by lia.
  revert s H. induction chars as [|x chars IH]; intros [|s] H; try discriminate.
  - injection H as ->. reflexivity.
  - cbn [skipn]. apply IH. exact H.
Qed.

(** Where no unknown codepoint begins with the marker's first byte, the
    outer loop ends: a pass that does not advance [start] clears
    [beginning], and the pass after it advances. *)
Lemma scan_start_returns chars :
  no_marker_lead U symbol_table chars ->
  forall fuel st,
    (passes_left chars st < fuel)%nat ->
    exists r, outer fuel chars st = Some r.
Proof.
  intros Hsafe fuel. induction fuel as [|fuel IH]; intros st Hm; [lia|].
  cbn [scan_start]. destruct (tk_start st <? length chars)%nat eqn:E; [|eauto].
  apply Nat.ltb_lt in E. apply IH.
  destruct (scan_end_cases chars (length chars) st E) as [A | (A & B & C)];
    unfold passes_left in *.
  - destruct (tk_beginning (inner chars (length chars) st)),
             (tk_beginning st); lia.
  - rewrite A, B. destruct (tk_beginning st) eqn:Eb; [lia|]. exfalso.
    destruct (nth_error chars (tk_start st)) as [c|] eqn:Ec;
      [|apply nth_error_None in Ec; lia].
    unfold broke in C. rewrite Eb, andb_false_r in C. cbv zeta in C.
    rewrite (join_chars_single chars _ c Ec) in C.
    destruct (Hsafe c (nth_error_In _ _ Ec)) as [N | N]; apply N, C.
Qed.

(** X6: the tokenizer returns, within two passes of the outer loop per
    codepoint (fuel [2 n + 2] for [n] codepoints), on every phrase none of
    whose out-of-vocabulary codepoints begins with the marker's first
    byte. *)
Lemma SplitUTF8StringToWords_returns str words :
  no_marker_lead U symbol_table (SplitUTF8StringToChars U (Trim U str)) ->
  exists r,
    SplitUTF8StringToWords U symbol_table
      (2 * length (SplitUTF8StringToChars U (Trim U str)) + 2) str words
    = Some r.
Proof.
  intros Hsafe. unfold SplitUTF8StringToWords.
  destruct (scan_start_returns _ Hsafe
              (2 * length (SplitUTF8StringToChars U (Trim U str)) + 2)
              (mkTok 0 true true words)) as (r & Hr).
  - unfold passes_left. cbn. lia.
  - rewrite Hr. eauto.
Qed.
End TokenizerTermination.

(** A phrase of one codepoint that is not alphabetic, not in the vocabulary
    and begins with the first byte of [kSpaceSymbol]: no amount of fuel
    ends the outer loop. *)
Lemma scan_start_loops_on_marker_lead U symbol_table c :
  String.eqb c " " = false ->
  IsAlpha U c = false ->
  Find symbol_table c = -1 ->
  head_byte c = head_byte (kSpaceSymbol U) ->
  forall fuel st, tk_start st = 0%nat ->
    scan_start U symbol_table fuel [c] st = None.
Proof.
  intros Hsp Hal Hf Hh.
  assert (Hpass : forall st, tk_start st = 0%nat ->
            scan_end U symbol_table [c] 1 st =
            mkTok 0 false (tk_no_oov st) (tk_words st ++ [kSpaceSymbol U])).
  { intros [s b n ws] Hs. cbn in Hs. subst s. cbn [scan_end tk_start].
    change (join_chars [c] 0 1) with c.
    cbn [Nat.ltb Nat.leb]. rewrite Hsp, Hal. cbn [andb].
    rewrite Hf. cbn [Z.eqb negb Nat.eqb Nat.add].
    rewrite Hh, Ascii.eqb_refl. reflexivity. }
  intros fuel. induction fuel as [|fuel IH]; intros st Hs; [reflexivity|].
  cbn [scan_start length]. rewrite Hs. cbn [Nat.ltb Nat.leb].
  rewrite (Hpass st Hs). apply IH. reflexivity.
Qed.

(** ** C6 *)

(** C6, evaluated where the code departs from it: the phrase is the euro
    sign (bytes E2 82 AC), which the vocabulary does not hold and whose
    first byte is that of [kSpaceSymbol].  At [end == start + 1] the inner
    loop appends [kSpaceSymbol] to the words and breaks without advancing
    [start]; the next pass does the same.  Whatever the fuel, the outer loop
    has not ended: the routine does not return. *)
Theorem tokenizer_loops_on_marker_lead_byte (fuel : nat) (words : list string) :
  SplitUTF8StringToWords WenetUtils.utils Examples.vocab fuel Examples.euro words
    = None.
Proof.
  unfold SplitUTF8StringToWords.
  change (SplitUTF8StringToChars WenetUtils.utils
            (Trim WenetUtils.utils Examples.euro)) with [Examples.euro].
  rewrite (scan_start_loops_on_marker_lead WenetUtils.utils Examples.vocab
             Examples.euro); reflexivity.
Qed.

(** * The automaton under AddState and AddArc *)

Lemma length_alter_nth {A} (f : A -> A) n l :
  length (alter_nth f n l) = length l.
Proof.
  revert n. induction l as [|x l IH]; intros [|n]; cbn; auto.
Qed.

Lemma nth_error_alter_nth_eq {A} (f : A -> A) n l :
  nth_error (alter_nth f n l) n = option_map f (nth_error l n).
Proof.
  revert n. induction l as [|x l IH]; intros [|n]; cbn; auto.
Qed.

Lemma nth_error_alter_nth_ne {A} (f : A -> A) n m l :
  m <> n -> nth_error (alter_nth f n l) m = nth_error l m.
Proof.
  revert n m. induction l as [|x l IH]; intros [|n] [|m] H; cbn;
    try reflexivity; try contradiction.
  apply IH. congruence.
Qed.

Lemma state_at_bounds g s x :
  state_at g s = Some x -> 0 <= s < NumStates g.
Proof.
  unfold state_at, NumStates. destruct (s <? 0) eqn:E; [discriminate|].
  intros H. apply Z.ltb_ge in E.
  assert (nth_error (states g) (Z.to_nat s) <> None) as N by congruence.
  apply nth_error_Some in N. lia.
Qed.

Lemma state_at_exists g s :
  0 <= s < NumStates g -> exists x, state_at g s = Some x.
Proof.
  unfold state_at, NumStates. intros [H1 H2].
  apply Z.ltb_ge in H1. rewrite H1.
  destruct (nth_error (states g) (Z.to_nat s)) eqn:E; [eauto|].
  apply nth_error_None in E. apply Z.ltb_ge in H1. lia.
Qed.

Lemma NumStates_alter_state f s g :
  NumStates (alter_state f s g) = NumStates g.
Proof.
  unfold alter_state, NumStates. destruct (s <? 0); [reflexivity|].
  cbn. rewrite length_alter_nth. reflexivity.
Qed.

Lemma state_at_alter_state_eq f s g :
  state_at (alter_state f s g) s = option_map f (state_at g s).
Proof.
  unfold alter_state, state_at. destruct (s <? 0); [reflexivity|].
  cbn. apply nth_error_alter_nth_eq.
Qed.

Lemma state_at_alter_state_ne f s s' g :
  s' <> s -> state_at (alter_state f s g) s' = state_at g s'.
Proof.
  intros H. unfold alter_state, state_at.
  destruct (s <? 0) eqn:E; [reflexivity|].
  destruct (s' <? 0) eqn:E'; [reflexivity|]. cbn.
  apply nth_error_alter_nth_ne. apply Z.ltb_ge in E, E'. lia.
Qed.

Lemma NumStates_AddArc g s a : NumStates (AddArc g s a) = NumStates g.
Proof. apply NumStates_alter_state. Qed.

Lemma state_at_AddArc_eq g s a :
  state_at (AddArc g s a) s =
  option_map (fun st => mkState (final st) (arcs st ++ [a])) (state_at g s).
Proof. apply state_at_alter_state_eq. Qed.

Lemma state_at_AddArc_ne g s s' a :
  s' <> s -> state_at (AddArc g s a) s' = state_at g s'.
Proof. apply state_at_alter_state_ne. Qed.

Lemma NumStates_AddState g : NumStates (fst (AddState g)) = NumStates g + 1.
Proof.
  unfold AddState, NumStates. cbn. rewrite length_app. cbn. lia.
Qed.

Lemma state_at_AddState_old g s x :
  state_at g s = Some x -> state_at (fst (AddState g)) s = Some x.
Proof.
  unfold AddState, state_at. cbn. destruct (s <? 0); [discriminate|].
  intros H. rewrite nth_error_app1; [exact H|].
  apply nth_error_Some. congruence.
Qed.

Lemma state_at_AddState_new g :
  state_at (fst (AddState g)) (NumStates g) = Some (mkState Weight_Zero []).
Proof.
  unfold AddState, state_at, NumStates. cbn.
  destruct (Z.of_nat (length (states g)) <? 0) eqn:E.
  - apply Z.ltb_lt in E. lia.
  - rewrite Nat2Z.id, nth_error_app2, Nat.sub_diag; [reflexivity | lia].
Qed.

(** * The layout of a phrase *)

Lemma extends_refl g : extends g g.
Proof.
  split; [lia|]. split; [reflexivity|].
  intros l H. exists []. rewrite app_nil_r. exact H.
Qed.

Lemma extends_trans g1 g2 g3 : extends g1 g2 -> extends g2 g3 -> extends g1 g3.
Proof.
  intros (N1 & S1 & A1) (N2 & S2 & A2). split; [lia|]. split.
  - intros s Hs. rewrite S2 by lia. apply S1. exact Hs.
  - intros l Hl. destruct (A1 l Hl) as (e1 & H1).
    destruct (A2 _ H1) as (e2 & H2). exists (e1 ++ e2).
    rewrite app_assoc. exact H2.
Qed.

Section BuilderFacts.
Variable U : StringUtils.
Variable cfg : ContextConfig.
Variable symbol_table : SymbolTable.

Abbreviation add_words := (AddWords U cfg symbol_table).
Abbreviation add_phrase := (AddPhrase U cfg symbol_table).
Abbreviation label := (label_arc U cfg symbol_table).
Abbreviation layout := (laid U cfg symbol_table).
Abbreviation tscore := (token_score U cfg).
Abbreviation after := (after_token U cfg symbol_table).

Lemma AddWords_nil i prev esc g : add_words [] i prev esc g = g.
Proof. reflexivity. Qed.

Lemma AddWords_cons w rest i prev esc g :
  add_words (w :: rest) i prev esc g =
  add_words rest (S i) (next_of rest g) (fadd esc (tscore i w))
    (after w rest i prev esc g).
Proof. destruct rest; reflexivity. Qed.

Lemma NumStates_after_token w rest i prev esc g :
  NumStates (after w rest i prev esc g) =
  match rest with [] => NumStates g | _ :: _ => NumStates g + 1 end.
Proof.
  unfold after_token. destruct (0 <? i)%nat;
    rewrite ?NumStates_AddArc; destruct rest;
    rewrite ?NumStates_AddState; reflexivity.
Qed.

Lemma state_at_after_token_ne w rest i prev esc g s x :
  s <> prev -> state_at g s = Some x ->
  state_at (after w rest i prev esc g) s = Some x.
Proof.
  intros Hs Hx. unfold after_token.
  destruct (0 <? i)%nat; rewrite !state_at_AddArc_ne by exact Hs;
    destruct rest; auto using state_at_AddState_old.
Qed.

Lemma state_at_after_token_prev w rest i prev esc g x :
  state_at g prev = Some x ->
  state_at (after w rest i prev esc g) prev =
  Some (mkState (final x)
          (arcs x ++ label i w (next_of rest g) ::
             (if (0 <? i)%nat then [escape_arc esc] else []))).
Proof.
  intros Hx. unfold after_token.
  assert (H1 : state_at (match rest with [] => g | _ :: _ => fst (AddState g) end)
                 prev = Some x).
  { destruct rest; auto using state_at_AddState_old. }
  destruct (0 <? i)%nat; rewrite !state_at_AddArc_eq, H1; cbn.
  - rewrite <- app_assoc. reflexivity.
  - reflexivity.
Qed.

Lemma state_at_after_token_new w w2 r2 i prev esc g :
  prev <> NumStates g ->
  state_at (after w (w2 :: r2) i prev esc g) (NumStates g) =
  Some (mkState Weight_Zero []).
Proof.
  intros Hp. unfold after_token.
  destruct (0 <? i)%nat; rewrite !state_at_AddArc_ne by congruence;
    apply state_at_AddState_new.
Qed.

Lemma NumStates_AddWords ws i prev esc g :
  NumStates g <= NumStates (add_words ws i prev esc g).
Proof.
  revert i prev esc g. induction ws as [|w rest IH]; intros i prev esc g.
  - cbn. lia.
  - rewrite AddWords_cons.
    specialize (IH (S i) (next_of rest g) (fadd esc (tscore i w))
                  (after w rest i prev esc g)).
    rewrite NumStates_after_token in IH. destruct rest; lia.
Qed.

(** The loop touches [prev_state] and the states it adds, nothing else. *)
Lemma AddWords_frame ws i prev esc g s x :
  s <> prev -> state_at g s = Some x ->
  state_at (add_words ws i prev esc g) s = Some x.
Proof.
  revert i prev esc g. induction ws as [|w rest IH]; intros i prev esc g Hs Hx.
  - exact Hx.
  - rewrite AddWords_cons. destruct rest as [|w2 r2].
    + rewrite AddWords_nil. apply state_at_after_token_ne; assumption.
    + apply IH.
      * cbn [next_of]. apply state_at_bounds in Hx. lia.
      * apply state_at_after_token_ne; assumption.
Qed.

Lemma AddWords_prev w rest i prev esc g x :
  state_at g prev = Some x ->
  state_at (add_words (w :: rest) i prev esc g) prev =
  Some (mkState (final x)
          (arcs x ++ label i w (next_of rest g) ::
             (if (0 <? i)%nat then [escape_arc esc] else []))).
Proof.
  intros Hx. rewrite AddWords_cons. destruct rest as [|w2 r2].
  - rewrite AddWords_nil. apply state_at_after_token_prev. exact Hx.
  - apply AddWords_frame.
    + cbn [next_of]. apply state_at_bounds in Hx. lia.
    + apply state_at_after_token_prev. exact Hx.
Qed.

Lemma laid_cons g w rest i prev esc :
  layout g (w :: rest) i prev esc <->
  exists next,
    (rest = [] -> next = 0) /\
    match i with
    | O => prev = 0 /\
           exists l, arcs_of g prev = Some l /\ In (label i w next) l
    | S _ => 0 < prev < NumStates g /\
             arcs_of g prev = Some [label i w next; escape_arc esc]
    end /\
    layout g rest (S i) next (fadd esc (tscore i w)).
Proof. reflexivity. Qed.

Lemma AddWords_laid ws i prev esc g :
  ready g i prev -> layout (add_words ws i prev esc g) ws i prev esc.
Proof.
  revert i prev esc g. induction ws as [|w rest IH]; intros i prev esc g R.
  - exact I.
  - apply laid_cons. exists (next_of rest g).
    split; [intros ->; reflexivity|]. split.
    + destruct i as [|i].
      * destruct R as (-> & x & Hx). split; [reflexivity|].
        unfold arcs_of. rewrite (AddWords_prev w rest 0 0 esc g x Hx). cbn.
        eexists. split; [reflexivity|]. apply in_or_app. right. left. reflexivity.
      * destruct R as (Hp & Hx). split.
        -- pose proof (state_at_bounds _ _ _ Hx).
           pose proof (NumStates_AddWords (w :: rest) (S i) prev esc g). lia.
        -- unfold arcs_of.
           rewrite (AddWords_prev w rest (S i) prev esc g _ Hx). reflexivity.
    + rewrite AddWords_cons. destruct rest as [|w2 r2]; [exact I|].
      apply IH. cbn [ready next_of].
      assert (Hb : 0 <= prev < NumStates g).
      { destruct i; [destruct R as (-> & x & Hx) | destruct R as (_ & Hx)];
          eapply state_at_bounds; eassumption. }
      split; [lia|]. apply state_at_after_token_new. lia.
Qed.

(** What is layout out stays when the automaton grows. *)
Lemma laid_extends g g' ws i prev esc :
  extends g g' -> layout g ws i prev esc -> layout g' ws i prev esc.
Proof.
  intros (N & S & A). revert i prev esc.
  induction ws as [|w rest IH]; intros i prev esc H; [exact I|].
  apply laid_cons in H. apply laid_cons.
  destruct H as (next & Hn & Hp & Hr). exists next.
  split; [exact Hn|]. split; [|apply IH; exact Hr].
  destruct i as [|i].
  - destruct Hp as (-> & l & Hl & Hin). split; [reflexivity|].
    destruct (A l Hl) as (extra & He). exists (l ++ extra).
    split; [exact He|]. apply in_or_app. left. exact Hin.
  - destruct Hp as (Hb & Hl). split; [lia|].
    unfold arcs_of in *. rewrite S by lia. exact Hl.
Qed.

Lemma AddPhrase_extends g ws x :
  state_at g 0 = Some x -> extends g (add_phrase g ws).
Proof.
  intros Hx. unfold add_phrase. split; [apply NumStates_AddWords|]. split.
  - intros s Hs. destruct (state_at_exists g s) as (y & Hy); [lia|].
    rewrite Hy. apply AddWords_frame; [lia | exact Hy].
  - intros l Hl. unfold arcs_of in *. rewrite Hx in Hl. injection Hl as <-.
    destruct ws as [|w rest].
    + exists []. rewrite AddWords_nil, Hx, app_nil_r. reflexivity.
    + rewrite (AddWords_prev w rest 0 0 fzero g x Hx). cbn. eauto.
Qed.

Lemma fold_AddPhrase_extends wss g x :
  state_at g 0 = Some x -> extends g (fold_left add_phrase wss g).
Proof.
  revert g x. induction wss as [|ws wss IH]; intros g x Hx.
  - apply extends_refl.
  - cbn [fold_left].
    pose proof (AddPhrase_extends g ws x Hx) as E.
    destruct E as (N & S & A).
    assert (Hx' : exists y, state_at (add_phrase g ws) 0 = Some y).
    { apply state_at_exists. apply state_at_bounds in Hx. lia. }
    destruct Hx' as (y & Hy).
    eapply extends_trans; [|apply (IH _ y Hy)].
    repeat split; assumption.
Qed.

(** Every phrase added is layout out in the final automaton. *)
Lemma fold_AddPhrase_laid wss g x ws :
  state_at g 0 = Some x -> In ws wss ->
  layout (fold_left add_phrase wss g) ws 0 0 fzero.
Proof.
  revert g x. induction wss as [|ws1 wss IH]; intros g x Hx Hin; [contradiction|].
  cbn [fold_left].
  assert (Hx' : exists y, state_at (add_phrase g ws1) 0 = Some y).
  { apply state_at_exists. apply state_at_bounds in Hx.
    pose proof (NumStates_AddWords ws1 0 0 fzero g). unfold add_phrase. lia. }
  destruct Hx' as (y & Hy).
  destruct Hin as [<- | Hin].
  - eapply laid_extends; [apply (fold_AddPhrase_extends _ _ y Hy)|].
    apply AddWords_laid. cbn. eauto.
  - apply (IH _ y Hy Hin).
Qed.
End BuilderFacts.

Section LayoutFacts.
Variable U : StringUtils.
Variable cfg : ContextConfig.
Variable symbol_table : SymbolTable.
Variable fuel : nat.

Abbreviation add_phrase := (AddPhrase U cfg symbol_table).
Abbreviation label := (label_arc U cfg symbol_table).
Abbreviation layout := (laid U cfg symbol_table).
Abbreviation tscore := (token_score U cfg).
Abbreviation scores := (scores_from U cfg).
Abbreviation build_loop := (BuildLoop U cfg symbol_table fuel).
Abbreviation tokens := (words_of U symbol_table fuel).
Abbreviation resolved := (resolved_words U symbol_table fuel).
Abbreviation short := (within_length cfg).

(** The labels of a layout-out phrase lead back to state 0. *)
Lemma laid_path g ws i prev esc :
  layout g ws i prev esc -> (ws = [] -> prev = 0) ->
  has_path g prev (map (Find symbol_table) ws) 0.
Proof.
  revert i prev esc. induction ws as [|w rest IH]; intros i prev esc H H0.
  - cbn. apply H0. reflexivity.
  - apply laid_cons in H. destruct H as (next & Hn & Hp & Hr).
    cbn [map has_path].
    assert (Ha : exists l, arcs_of g prev = Some l /\ In (label i w next) l).
    { destruct i as [|i].
      - destruct Hp as (_ & l & Hl & Hin). eauto.
      - destruct Hp as (_ & Hl). eexists. split; [exact Hl|]. left. reflexivity. }
    destruct Ha as (l & Hl & Hin).
    exists l, (label i w next). repeat split; try assumption.
    apply (IH (S i) next _ Hr Hn).
Qed.

(** The state that carries the arc of the token at position [k], and what
    is at that state. *)
Lemma laid_at g ws i prev esc k w :
  layout g ws i prev esc -> nth_error ws k = Some w ->
  exists src next,
    has_path g prev (map (Find symbol_table) (firstn k ws)) src /\
    match (i + k)%nat with
    | O => src = 0 /\
           exists l, arcs_of g src = Some l /\ In (label 0 w next) l
    | S _ => 0 < src < NumStates g /\
             arcs_of g src =
               Some [label (i + k) w next;
                     escape_arc (fold_left fadd (firstn k (scores i ws)) esc)]
    end.
Proof.
  revert i prev esc k. induction ws as [|w0 rest IH]; intros i prev esc k H Hk.
  - destruct k; discriminate.
  - apply laid_cons in H. destruct H as (next & Hn & Hp & Hr).
    destruct k as [|k].
    + injection Hk as <-. exists prev, next. split; [reflexivity|].
      rewrite Nat.add_0_r. cbn [firstn fold_left]. destruct i; exact Hp.
    + cbn [nth_error] in Hk.
      destruct (IH (S i) next _ k Hr Hk) as (src & nx & Hpath & Hat).
      exists src, nx. split.
      * cbn [firstn map has_path].
        assert (Ha : exists l, arcs_of g prev = Some l /\ In (label i w0 next) l).
        { destruct i as [|i].
          - destruct Hp as (_ & l & Hl & Hin). eauto.
          - destruct Hp as (_ & Hl). eexists. split; [exact Hl|]. left. reflexivity. }
        destruct Ha as (l & Hl & Hin).
        exists l, (label i w0 next). repeat split; assumption.
      * rewrite Nat.add_succ_r. cbn [Nat.add] in Hat.
        cbn [firstn fold_left]. exact Hat.
Qed.

(** The loop over the phrases adds the token sequences of the phrases
    that are counted and resolved, in order. *)
Lemma BuildLoop_refines contexts count g :
  (forall c,
     In c (firstn (Z.to_nat (max_contexts cfg - count)) (short contexts)) ->
     tokens c <> None) ->
  build_loop contexts count g =
  Some (fold_left add_phrase
          (flat_map resolved
             (firstn (Z.to_nat (max_contexts cfg - count)) (short contexts)))
          g).
Proof.
  revert count g. induction contexts as [|c rest IH]; intros count g H.
  - cbn. destruct (Z.to_nat (max_contexts cfg - count)); reflexivity.
  - cbn [BuildLoop within_length filter] in *.
    destruct (too_long cfg c) eqn:E; cbn [negb] in *.
    + apply IH. exact H.
    + destruct (count + 1 >? max_contexts cfg) eqn:Ec.
      * apply Z.gtb_lt in Ec.
        replace (Z.to_nat (max_contexts cfg - count)) with O by lia.
        reflexivity.
      * assert (Hc : count + 1 <= max_contexts cfg).
        { destruct (Z.gtb_spec (count + 1) (max_contexts cfg)); [discriminate|lia]. }
        replace (Z.to_nat (max_contexts cfg - count))
          with (S (Z.to_nat (max_contexts cfg - (count + 1)))) in * by lia.
        cbn [firstn flat_map] in *.
        assert (Hw : tokens c <> None) by (apply H; left; reflexivity).
        assert (Hr : forall c',
          In c' (firstn (Z.to_nat (max_contexts cfg - (count + 1)))
                   (short rest)) -> tokens c' <> None).
        { intros c' Hc'. apply H. right. exact Hc'. }
        unfold resolved_words at 1.
        unfold words_of in Hw |- *.
        destruct (SplitUTF8StringToWords U symbol_table fuel (Trim U c) [])
          as [[[|] ws]|]; [| |congruence]; cbn [negb app fold_left].
        -- apply IH. exact Hr.
        -- apply IH. exact Hr.
Qed.

(** Phrases over the size limit leave no trace: the loop does the same
    without them. *)
Lemma BuildLoop_within_length contexts count g :
  build_loop contexts count g = build_loop (short contexts) count g.
Proof.
  revert count g. induction contexts as [|c rest IH]; intros count g.
  - reflexivity.
  - cbn [BuildLoop within_length filter].
    destruct (too_long cfg c) eqn:E; cbn [negb].
    + apply IH.
    + cbn [BuildLoop]. rewrite E.
      destruct (count + 1 >? max_contexts cfg); [reflexivity|].
      destruct (SplitUTF8StringToWords U symbol_table fuel (Trim U c) [])
        as [[[|] ws]|]; [| |reflexivity]; cbn [negb]; apply IH.
Qed.
End LayoutFacts.

(** For a finite [x], [x + (-x)] is +0.0. *)
Lemma fadd_fneg_cancel x : is_finite x = true -> fadd x (fneg x) = fzero.
Proof.
  destruct x as [s|s| |s m e]; cbn; try discriminate; intros _.
  - destruct s; reflexivity.
  - unfold fadd, SFadd, fneg, SFopp. cbn.
    rewrite Z.min_id. unfold shl_align. rewrite Z.sub_diag. cbn.
    destruct s; cbn; rewrite ?Z.pos_sub_diag; reflexivity.
Qed.

(** * BuildContextGraph *)

Lemma InitialFst_start : state_at InitialFst 0 = Some (mkState Weight_One []).
Proof. reflexivity. Qed.

Lemma filter_firstn_filter {A} (p : A -> bool) n l :
  filter p (firstn n (filter p l)) = firstn n (filter p l).
Proof.
  revert n. induction l as [|x l IH]; intros n.
  - destruct n; reflexivity.
  - cbn [filter]. destruct (p x) eqn:E; [|apply IH].
    destruct n; [reflexivity|]. cbn [firstn filter]. rewrite E, IH. reflexivity.
Qed.

Lemma counted_idempotent cfg contexts :
  counted cfg (counted cfg contexts) = counted cfg contexts.
Proof.
  unfold counted, within_length.
  rewrite filter_firstn_filter, firstn_firstn, Nat.min_id. reflexivity.
Qed.

Section BuildFacts.
Variable U : StringUtils.
Variable cfg : ContextConfig.
Variable symbol_table : SymbolTable.
Variable fuel : nat.

Lemma BuildOfst_refines contexts :
  tokenizer_returns U cfg symbol_table fuel contexts ->
  BuildOfst U cfg symbol_table fuel contexts =
  Some (fold_left (AddPhrase U cfg symbol_table)
          (accepted_words U cfg symbol_table fuel contexts) InitialFst).
Proof.
  intros H. unfold BuildOfst, accepted_words, counted.
  rewrite <- (Z.sub_0_r (max_contexts cfg)).
  apply BuildLoop_refines. rewrite Z.sub_0_r. exact H.
Qed.

Lemma accepted_words_In contexts c ws :
  In c (counted cfg contexts) ->
  words_of U symbol_table fuel c = Some (true, ws) ->
  In ws (accepted_words U cfg symbol_table fuel contexts).
Proof.
  intros Hc Hw. unfold accepted_words. apply in_flat_map.
  exists c. split; [exact Hc|]. unfold resolved_words. rewrite Hw.
  left. reflexivity.
Qed.

(** Every counted and resolved phrase is laid out in the automaton. *)
Lemma BuildOfst_laid contexts c ws :
  tokenizer_returns U cfg symbol_table fuel contexts ->
  In c (counted cfg contexts) ->
  words_of U symbol_table fuel c = Some (true, ws) ->
  exists ofst,
    BuildOfst U cfg symbol_table fuel contexts = Some ofst /\
    laid U cfg symbol_table ofst ws 0 0 fzero.
Proof.
  intros H Hc Hw. eexists. split; [apply BuildOfst_refines; exact H|].
  eapply fold_AddPhrase_laid; [apply InitialFst_start|].
  eapply accepted_words_In; eassumption.
Qed.
End BuildFacts.

(** For a phrase list that is not empty, [graph_] is the determinized
    automaton of [BuildOfst] over the symbol table with the two tags. *)
Lemma BuildContextGraph_graph U Determinize fuel self c rest symbol_table :
  BuildContextGraph U Determinize fuel self (c :: rest) symbol_table =
  let t2 := fst (AddSymbol (fst (AddSymbol symbol_table "<context>")) "</context>") in
  match BuildOfst U (config_ self) t2 fuel (c :: rest) with
  | None => None
  | Some ofst =>
      Some (mkContextGraph (config_ self) (Some (Determinize ofst)) (Some t2)
              (snd (AddSymbol symbol_table "<context>"))
              (snd (AddSymbol (fst (AddSymbol symbol_table "<context>")) "</context>")),
            t2)
  end.
Proof.
  unfold BuildContextGraph.
  destruct (AddSymbol symbol_table "<context>") as [t1 a].
  cbn [fst snd]. destruct (AddSymbol t1 "</context>") as [t2 b].
  reflexivity.
Qed.

(** ** C7 *)

(** C7, as stated, fails: with max_contexts = 1 and the phrases "?" (out of
    vocabulary) and "a", the first accepted phrase is "a", and yet the
    automaton has no arc: the skipped phrase "?" has used the budget. *)
Lemma first_accepted_phrase_dropped :
  first_accepted WenetUtils.utils (Examples.config 100 1) Examples.vocab 10
    ["?"%string; "a"%string] = ["a"%string] /\
  words_of WenetUtils.utils Examples.vocab 10 "a" = Some (true, [Examples.marked_a]) /\
  BuildOfst WenetUtils.utils (Examples.config 100 1) Examples.vocab 10
    ["?"%string; "a"%string] = Some InitialFst /\
  ~ represented Examples.vocab InitialFst [Examples.marked_a].
Proof.
  split; [reflexivity|]. split; [reflexivity|]. split; [reflexivity|].
  intros (l & a & Hl & Hin & _). injection Hl as <-. exact Hin.
Qed.

(** C7, amended: phrases skipped for their size do not consume the
    max_contexts budget, phrases skipped for an unresolved token do: the
    phrases counted are the first max_contexts phrases within the size
    limit, the automaton holds the token sequences of exactly those of them
    that are fully resolved, and any phrase after the counted ones is as if
    it had not been supplied. *)
Theorem budget_counts_tokenized_phrases U cfg symbol_table fuel contexts :
  (forall c, In c (counted cfg contexts) ->
             words_of U symbol_table fuel c <> None) ->
  BuildOfst U cfg symbol_table fuel contexts =
    Some (fold_left (AddPhrase U cfg symbol_table)
            (flat_map (resolved_words U symbol_table fuel)
               (firstn (Z.to_nat (max_contexts cfg))
                  (filter (fun c => negb (too_long cfg c)) contexts)))
            InitialFst) /\
  BuildOfst U cfg symbol_table fuel contexts =
    BuildOfst U cfg symbol_table fuel (counted cfg contexts).
Proof.
  intros H. split; [apply BuildOfst_refines; exact H|].
  rewrite (BuildOfst_refines U cfg symbol_table fuel contexts H).
  rewrite (BuildOfst_refines U cfg symbol_table fuel (counted cfg contexts)).
  - unfold accepted_words. rewrite counted_idempotent. reflexivity.
  - unfold tokenizer_returns. rewrite counted_idempotent. exact H.
Qed.

Lemma budget_counts_tokenized_phrases_witness :
  BuildOfst WenetUtils.utils (Examples.config 100 1) Examples.vocab 10
    ["?"%string; "a"%string] =
  BuildOfst WenetUtils.utils (Examples.config 100 1) Examples.vocab 10 ["?"%string].
Proof.
  refine (proj2 (budget_counts_tokenized_phrases WenetUtils.utils
                   (Examples.config 100 1) Examples.vocab 10
                   ["?"%string; "a"%string] _)).
  intros c Hc. vm_compute in Hc. destruct Hc as [<- | []].
  vm_compute. discriminate.
Defined.

(** ** C8 *)

(** C8, as stated, fails: with max_context_length = 1 the phrase U+00E9 has
    one codepoint and is fully resolved, and yet it is skipped: its size is
    two bytes. *)
Lemma short_in_codepoints_yet_skipped :
  UTF8StringLength WenetUtils.utils Examples.e_acute
    <= max_context_length (Examples.config 1 10) /\
  words_of WenetUtils.utils Examples.vocab 10 Examples.e_acute
    = Some (true, [Examples.e_acute]) /\
  BuildOfst WenetUtils.utils (Examples.config 1 10) Examples.vocab 10
    [Examples.e_acute] = Some InitialFst /\
  ~ represented Examples.vocab InitialFst [Examples.e_acute].
Proof.
  split; [vm_compute; discriminate|]. split; [reflexivity|].
  split; [reflexivity|].
  intros (l & a & Hl & Hin & _). injection Hl as <-. exact Hin.
Qed.

(** C8, amended: BuildContextGraph skips a phrase exactly when its size in
    bytes exceeds max_context_length (converted to size_t); a fully resolved
    phrase of at most that many bytes within the max_contexts budget is
    included in the automaton (its tokens lead from state 0 back to state
    0), and the automaton is the one built without the longer phrases. *)
Theorem size_limit_is_in_bytes U cfg symbol_table fuel contexts :
  (forall c, In c (counted cfg contexts) ->
             words_of U symbol_table fuel c <> None) ->
  within_length cfg contexts =
    filter (fun c => Z.of_nat (String.length c)
                       <=? max_context_length cfg mod 2 ^ 64) contexts /\
  BuildOfst U cfg symbol_table fuel contexts =
    BuildOfst U cfg symbol_table fuel (within_length cfg contexts) /\
  exists ofst,
    BuildOfst U cfg symbol_table fuel contexts = Some ofst /\
    forall c ws,
      In c (counted cfg contexts) ->
      words_of U symbol_table fuel c = Some (true, ws) ->
      represented symbol_table ofst ws.
Proof.
  intros H. split; [|split].
  - unfold within_length. apply filter_ext. intros c.
    unfold too_long, to_size_t. rewrite Z.gtb_ltb, Z.leb_antisym. reflexivity.
  - unfold BuildOfst. apply BuildLoop_within_length.
  - eexists. split; [apply BuildOfst_refines; exact H|].
    intros c ws Hc Hw. unfold represented.
    eapply laid_path; [|reflexivity].
    eapply fold_AddPhrase_laid; [apply InitialFst_start|].
    eapply accepted_words_In; eassumption.
Qed.

Lemma size_limit_is_in_bytes_witness :
  exists ofst,
    BuildOfst WenetUtils.utils (Examples.config 2 10) Examples.vocab 10
      ["a b"%string; Examples.e_acute] = Some ofst /\
    represented Examples.vocab ofst [Examples.e_acute].
Proof.
  destruct (size_limit_is_in_bytes WenetUtils.utils (Examples.config 2 10)
              Examples.vocab 10 ["a b"%string; Examples.e_acute])
    as (_ & _ & ofst & Ho & Hr).
  - intros c Hc. vm_compute in Hc. destruct Hc as [<- | []].
    vm_compute. discriminate.
  - exists ofst. split; [exact Ho|].
    apply (Hr Examples.e_acute); [vm_compute; auto | reflexivity].
Defined.

(** ** C9 *)

(** C9: for every accepted phrase (counted and fully resolved), the arc of
    its i-th token (0-indexed), which leaves the state reached by the
    tokens before it, is labeled with the token's id and carries
    i * incremental_context_score + context_score when the token is
    alphabetic or begins with the first byte of the space marker, and that
    value multiplied by the token's codepoint length otherwise. *)
Theorem token_arc_score U cfg symbol_table fuel contexts c ws i w :
  (forall c', In c' (counted cfg contexts) ->
              words_of U symbol_table fuel c' <> None) ->
  In c (counted cfg contexts) ->
  words_of U symbol_table fuel c = Some (true, ws) ->
  nth_error ws i = Some w ->
  exists ofst src l a,
    BuildOfst U cfg symbol_table fuel contexts = Some ofst /\
    has_path ofst 0 (map (Find symbol_table) (firstn i ws)) src /\
    arcs_of ofst src = Some l /\ In a l /\
    ilabel a = Find symbol_table w /\
    olabel a = Find symbol_table w /\
    weight a =
      (let base :=
         fadd (fmul (float_of_Z (Z.of_nat i)) (incremental_context_score cfg))
              (context_score cfg) in
       if IsAlpha U w || Ascii.eqb (head_byte w) (head_byte (kSpaceSymbol U))
       then base
       else fmul base (float_of_Z (UTF8StringLength U w))).
Proof.
  intros H Hc Hw Hi.
  destruct (BuildOfst_laid U cfg symbol_table fuel contexts c ws H Hc Hw)
    as (ofst & Ho & Hl).
  destruct (laid_at U cfg symbol_table ofst ws 0 0 fzero i w Hl Hi)
    as (src & next & Hp & Hat).
  cbn [Nat.add] in Hat.
  assert (Ha : exists l, arcs_of ofst src = Some l /\
                         In (label_arc U cfg symbol_table i w next) l).
  { destruct i as [|i].
    - destruct Hat as (_ & l & Hl0 & Hin). eauto.
    - destruct Hat as (_ & Hl0). eexists. split; [exact Hl0|]. left. reflexivity. }
  destruct Ha as (l & Hl0 & Hin).
  exists ofst, src, l, (label_arc U cfg symbol_table i w next).
  repeat (split; [assumption || reflexivity|]).
  cbn [label_arc weight]. unfold token_score, alpha_or_boundary, base_score.
  cbv zeta.
  destruct (IsAlpha U w || Ascii.eqb (head_byte w) (head_byte (kSpaceSymbol U)));
    reflexivity.
Qed.

Lemma token_arc_score_witness :
  words_of WenetUtils.utils Examples.vocab 10 "a b"
    = Some (true, [Examples.marked_a;
                   (WenetUtils.kSpaceSymbol ++ "b")%string]) /\
  exists ofst src l a,
    BuildOfst WenetUtils.utils (Examples.config 100 10) Examples.vocab 10
      ["a b"%string] = Some ofst /\
    has_path ofst 0 [1] src /\
    arcs_of ofst src = Some l /\ In a l /\
    ilabel a = 3 /\ olabel a = 3 /\
    weight a = fadd (fmul (float_of_Z 1) (float_of_Z 1)) (float_of_Z 3).
Proof.
  split; [reflexivity|].
  refine (token_arc_score WenetUtils.utils (Examples.config 100 10)
            Examples.vocab 10 ["a b"%string] "a b"
            [Examples.marked_a; (WenetUtils.kSpaceSymbol ++ "b")%string]
            1 (WenetUtils.kSpaceSymbol ++ "b")%string _ _ _ _).
  - intros c Hc. vm_compute in Hc. destruct Hc as [<- | []].
    vm_compute. discriminate.
  - vm_compute. auto.
  - reflexivity.
  - reflexivity.
Defined.

(** ** C3 *)

Lemma escape_baseline_of_weight l acc entry :
  fold_left (fun acc a => if ilabel a =? 0 then Some (weight a) else acc) l acc
    = match acc with
      | Some w => Some (escape_baseline l w)
      | None =>
          fold_left (fun acc a => if ilabel a =? 0 then Some (weight a) else acc)
            l None
      end /\
  (fold_left (fun acc a => if ilabel a =? 0 then Some (weight a) else acc) l None
     = None -> escape_baseline l entry = entry) /\
  (forall w,
     fold_left (fun acc a => if ilabel a =? 0 then Some (weight a) else acc) l None
       = Some w -> escape_baseline l entry = w).
Proof.
  revert acc entry. induction l as [|a l IH]; intros acc entry.
  - cbn. destruct acc; repeat split; auto; discriminate.
  - unfold escape_baseline in *. cbn [fold_left].
    destruct (ilabel a =? 0).
    + destruct (IH (Some (weight a)) (weight a)) as (E & _ & _).
      rewrite E. repeat split.
      * destruct acc; reflexivity.
      * discriminate.
      * intros w [= <-]. reflexivity.
    + apply IH.
Qed.

(** The baseline the first loop leaves is the weight of the state's last
    escape arc when it has one, whatever [*score] held on entry. *)
Lemma escape_baseline_weight l w entry :
  escape_weight l = Some w -> escape_baseline l entry = w.
Proof.
  intros H. destruct (escape_baseline_of_weight l None entry) as (_ & _ & E).
  apply E. exact H.
Qed.




(** * Further properties *)

(** ** GetNextState: which state is returned *)

Lemma scan_cur_dest g l s t out n r :
  scan_cur g l s t out = Some (n, r) ->
  n = 0 \/ exists a, In a l /\ ilabel a = t /\ nextstate a = n.
Proof.
  revert out. induction l as [|a l IH]; intros out H.
  - cbn in H. injection H as <- <-. auto.
  - cbn [scan_cur] in H. destruct (ilabel a =? 0).
    + apply IH in H. destruct H as [?|(b & Hb & ?)]; [auto|].
      right. exists b. split; [right; exact Hb | assumption].
    + destruct (ilabel a =? t) eqn:Et.
      * destruct (mark_boundaries g s a _); [|discriminate].
        injection H as <- <-. apply Z.eqb_eq in Et.
        right. exists a. split; [left; reflexivity | auto].
      * apply IH in H. destruct H as [?|(b & Hb & ?)]; [auto|].
        right. exists b. split; [right; exact Hb | assumption].
Qed.

Lemma scan_zero_dest g l s t out n r :
  scan_zero g l s t out = Some (n, r) ->
  n = 0 \/ exists a, In a l /\ ilabel a = t /\ nextstate a = n.
Proof.
  induction l as [|a l IH]; intros H.
  - cbn in H. injection H as <- <-. auto.
  - cbn [scan_zero] in H. destruct (ilabel a =? t) eqn:Et.
    + destruct (mark_boundaries g s a _); [|discriminate].
      injection H as <- <-. apply Z.eqb_eq in Et.
      right. exists a. split; [left; reflexivity | auto].
    + apply IH in H. destruct H as [?|(b & Hb & ?)]; [auto|].
      right. exists b. split; [right; exact Hb | assumption].
Qed.

Lemma GetNextState_dest g s t out n r :
  GetNextState (Some g) s t out = Some (n, r) ->
  n = 0 \/
  (exists l a, arcs_of g s = Some l /\ In a l /\ ilabel a = t /\ nextstate a = n) \/
  (exists l0 a, arcs_of g 0 = Some l0 /\ In a l0 /\ ilabel a = t /\ nextstate a = n).
Proof.
  unfold GetNextState. destruct (arcs_of g s) as [l|]; [|discriminate].
  destruct (scan_cur g l s t out) as [[n1 r1]|] eqn:E1; [|discriminate].
  destruct (negb (n1 =? 0)) eqn:En.
  - intros [= <- <-]. apply scan_cur_dest in E1.
    destruct E1 as [?|(a & ?)]; [auto|]. right. left. exists l, a. tauto.
  - destruct (arcs_of g 0) as [l0|]; [|discriminate]. intros H.
    apply scan_zero_dest in H. destruct H as [?|(a & ?)]; [auto|].
    right. right. exists l0, a. tauto.
Qed.

(** X1: the state GetNextState returns is 0 or the destination of an arc
    labeled word_id that leaves cur_state or state 0; it is never any other
    state. *)
Theorem lookup_returns_arc_destination g cur_state word_id out n r :
  GetNextState (Some g) cur_state word_id out = Some (n, r) ->
  n = 0 \/
  (exists l a, arcs_of g cur_state = Some l /\ In a l /\
               ilabel a = word_id /\ nextstate a = n) \/
  (exists l0 a, arcs_of g 0 = Some l0 /\ In a l0 /\
                ilabel a = word_id /\ nextstate a = n).
Proof. apply GetNextState_dest. Qed.

Lemma lookup_returns_arc_destination_witness :
  GetNextState
    (Some (mkFst 0
       [mkState Weight_One [mkArc 1 1 (float_of_Z 3) 1];
        mkState Weight_Zero [mkArc 3 3 (float_of_Z 4) 0;
                             mkArc 0 0 (fneg (float_of_Z 3)) 0]]))
    1 1 Examples.out0 = Some (1, mkOut fzero false false) /\
  (1 = 0 \/
   (exists l a,
      arcs_of (mkFst 0
         [mkState Weight_One [mkArc 1 1 (float_of_Z 3) 1];
          mkState Weight_Zero [mkArc 3 3 (float_of_Z 4) 0;
                               mkArc 0 0 (fneg (float_of_Z 3)) 0]]) 1 = Some l /\
      In a l /\ ilabel a = 1 /\ nextstate a = 1) \/
   (exists l0 a,
      arcs_of (mkFst 0
         [mkState Weight_One [mkArc 1 1 (float_of_Z 3) 1];
          mkState Weight_Zero [mkArc 3 3 (float_of_Z 4) 0;
                               mkArc 0 0 (fneg (float_of_Z 3)) 0]]) 0 = Some l0 /\
      In a l0 /\ ilabel a = 1 /\ nextstate a = 1)).
Proof.
  split; [reflexivity|].
  apply (lookup_returns_arc_destination _ 1 1 Examples.out0 1
           (mkOut fzero false false)).
  reflexivity.
Defined.

(** ** GetNextState: the three outcomes of a lookup *)

(** X2: when no labeled arc of cur_state matches word_id and no arc of
    state 0 is labeled word_id, GetNextState returns next_state 0, leaves
    both flags as passed in, and score_delta is the weight of the last
    escape arc of cur_state, or the entry value when it has none. *)
Theorem lookup_without_match g cur_state word_id out l l0 :
  arcs_of g cur_state = Some l ->
  arcs_of g 0 = Some l0 ->
  Forall (fun a => labeled_match word_id a = false) l ->
  Forall (fun a => ilabel a <> word_id) l0 ->
  GetNextState (Some g) cur_state word_id out =
    Some (0, mkOut (escape_baseline l (score out))
               (is_start_boundary out) (is_end_boundary out)).
Proof.
  intros Hl H0 Hn Hz. unfold GetNextState.
  rewrite Hl, (scan_cur_no_match g l _ _ out Hn). cbn [negb Z.eqb].
  rewrite H0. apply scan_zero_no_match. exact Hz.
Qed.

Lemma lookup_without_match_witness :
  GetNextState
    (Some (mkFst 0
       [mkState Weight_One [mkArc 1 1 (float_of_Z 3) 1];
        mkState Weight_Zero [mkArc 3 3 (float_of_Z 4) 0;
                             mkArc 0 0 (fneg (float_of_Z 3)) 0]]))
    1 7 (mkOut (float_of_Z 9) false false)
  = Some (0, mkOut (fneg (float_of_Z 3)) false false).
Proof.
  apply (lookup_without_match _ 1 7 (mkOut (float_of_Z 9) false false)
           [mkArc 3 3 (float_of_Z 4) 0; mkArc 0 0 (fneg (float_of_Z 3)) 0]
           [mkArc 1 1 (float_of_Z 3) 1]).
  - reflexivity.
  - reflexivity.
  - repeat constructor.
  - repeat constructor. discriminate.
Defined.

(** X3: when the first labeled arc of cur_state that matches word_id leads
    to state 0 (the end of a phrase) and no arc of state 0 is labeled
    word_id, GetNextState returns next_state 0 with the arc's weight as
    score_delta; is_start_boundary is set when cur_state is 0 and
    is_end_boundary when state 0 is final with weight One. *)
Theorem lookup_at_phrase_end g cur_state word_id out pre a post l0 fw :
  arcs_of g cur_state = Some (pre ++ a :: post) ->
  Forall (fun b => labeled_match word_id b = false) pre ->
  labeled_match word_id a = true ->
  nextstate a = 0 ->
  Final g 0 = Some fw ->
  arcs_of g 0 = Some l0 ->
  Forall (fun b => ilabel b <> word_id) l0 ->
  GetNextState (Some g) cur_state word_id out =
    Some (0, mkOut (weight a)
               ((cur_state =? 0) || is_start_boundary out)
               (feqb fw Weight_One || is_end_boundary out)).
Proof.
  intros Hl Hpre Ha Hn Hf H0 Hz. unfold GetNextState. rewrite Hl.
  rewrite <- Hn in Hf.
  rewrite (scan_cur_first_match g pre a post _ _ out fw Hpre Ha Hf).
  rewrite Hn. cbn [negb Z.eqb]. rewrite H0.
  rewrite (scan_zero_no_match g l0 _ _ _ Hz).
  destruct (cur_state =? 0), (feqb fw Weight_One); reflexivity.
Qed.

Lemma lookup_at_phrase_end_witness :
  GetNextState
    (Some (mkFst 0
       [mkState Weight_One [mkArc 1 1 (float_of_Z 3) 1];
        mkState Weight_Zero [mkArc 3 3 (float_of_Z 4) 0;
                             mkArc 0 0 (fneg (float_of_Z 3)) 0]]))
    1 3 Examples.out0
  = Some (0, mkOut (float_of_Z 4) false true).
Proof.
  apply (lookup_at_phrase_end _ 1 3 Examples.out0 []
           (mkArc 3 3 (float_of_Z 4) 0)
           [mkArc 0 0 (fneg (float_of_Z 3)) 0]
           [mkArc 1 1 (float_of_Z 3) 1] Weight_One).
  - reflexivity.
  - constructor.
  - reflexivity.
  - reflexivity.
  - reflexivity.
  - reflexivity.
  - repeat constructor. discriminate.
Defined.

(** ** SplitUTF8StringToWords: what the returned words are *)

Section TokenizerResult.
Variable U : StringUtils.
Variable symbol_table : SymbolTable.

Abbreviation inner_loop := (scan_end U symbol_table).
Abbreviation outer_loop := (scan_start U symbol_table).
Abbreviation cover := (covers U symbol_table).

Lemma head_byte_marked k w :
  k <> EmptyString -> head_byte (k ++ w)%string = head_byte k.
Proof. destruct k; [congruence | reflexivity]. Qed.

(** A word that is looked up marked, is not found and does not begin with
    the marker's first byte is the unmarked word. *)
Lemma unmarked_when_skipped (b : bool) w :
  Find symbol_table (if b then (kSpaceSymbol U ++ w)%string else w) = -1 ->
  Ascii.eqb (head_byte (if b then (kSpaceSymbol U ++ w)%string else w))
            (head_byte (kSpaceSymbol U)) = false ->
  Find symbol_table w = -1.
Proof.
  destruct b; [|auto]. destruct (kSpaceSymbol U) as [|c k] eqn:E; [auto|].
  intros _ H. cbn in H. rewrite Ascii.eqb_refl in H. discriminate.
Qed.

Lemma covers_position chars p ts ok :
  cover chars p ts ok -> (p <= length chars)%nat.
Proof. induction 1; lia. Qed.

Lemma covers_tokens chars p ts ok :
  cover chars p ts ok ->
  Forall (fun t => Find symbol_table t <> -1 \/ t = kSpaceSymbol U) ts.
Proof.
  induction 1; auto; apply Forall_app; split; auto.
Qed.

Lemma scan_end_covers chars words e st :
  (e <= length chars)%nat ->
  covered_so_far U symbol_table chars words st ->
  covered_so_far U symbol_table chars words (inner_loop chars e st).
Proof.
  revert st. induction e as [|e IH]; intros st He Hc; [exact Hc|].
  cbn [scan_end]. destruct (tk_start st <? S e)%nat eqn:E; [|exact Hc].
  apply Nat.ltb_lt in E. destruct Hc as (ts & Hw & Hcov).
  set (word := join_chars chars (tk_start st) (S e)) in *.
  destruct (String.eqb word " ") eqn:Esp.
  { apply IH; [lia|]. exists ts. cbn [tk_words tk_start tk_no_oov].
    split; [exact Hw|]. apply String.eqb_eq in Esp.
    eapply cov_space; [exact Hcov | lia | exact Esp]. }
  destruct (negb (Find symbol_table _ =? -1)) eqn:Ef.
  { apply IH; [lia|]. apply negb_true_iff, Z.eqb_neq in Ef.
    destruct (IsAlpha U word && tk_beginning st) eqn:Em.
    - apply andb_prop in Em. destruct Em as [Ea _].
      exists (ts ++ [(kSpaceSymbol U ++ word)%string]).
      cbn [tk_words tk_start tk_no_oov]. rewrite Hw, <- app_assoc.
      split; [reflexivity|].
      eapply cov_marked; [exact Hcov | lia | exact Ea | exact Ef].
    - exists (ts ++ [word]).
      cbn [tk_words tk_start tk_no_oov]. rewrite Hw, <- app_assoc.
      split; [reflexivity|].
      eapply cov_plain; [exact Hcov | lia | exact Ef]. }
  apply negb_false_iff, Z.eqb_eq in Ef.
  destruct (S e =? tk_start st + 1)%nat eqn:E1;
    [|apply IH; [lia | exists ts; auto]].
  apply Nat.eqb_eq in E1.
  destruct (Ascii.eqb (head_byte _) (head_byte (kSpaceSymbol U))) eqn:Eh.
  - exists (ts ++ [kSpaceSymbol U]).
    cbn [tk_words tk_start tk_no_oov]. rewrite Hw, <- app_assoc.
    split; [reflexivity|]. eapply cov_marker; [exact Hcov | lia].
  - apply IH; [lia|]. exists ts. cbn [tk_words tk_start tk_no_oov].
    split; [exact Hw|].
    eapply cov_skip; [exact Hcov | lia |].
    rewrite <- E1. eapply unmarked_when_skipped; eassumption.
Qed.

Lemma scan_start_covers chars words fuel st r :
  covered_so_far U symbol_table chars words st ->
  outer_loop fuel chars st = Some r ->
  exists ts, tk_words r = words ++ ts /\
             cover chars (length chars) ts (tk_no_oov r).
Proof.
  revert st. induction fuel as [|fuel IH]; intros st Hc H; [discriminate|].
  cbn [scan_start] in H. destruct (tk_start st <? length chars)%nat eqn:E.
  - eapply IH; [|exact H]. apply scan_end_covers; [lia | exact Hc].
  - injection H as <-. destruct Hc as (ts & Hw & Hcov).
    apply Nat.ltb_ge in E. pose proof (covers_position _ _ _ _ Hcov) as Hp.
    replace (length chars) with (tk_start st) by lia. eauto.
Qed.


(** ** SplitUTF8StringToWords: phrases that are fully resolved *)

Lemma scan_end_resolved chars e st :
  covered_chars symbol_table chars ->
  (tk_start st < e <= length chars)%nat ->
  tk_no_oov (inner_loop chars e st) = tk_no_oov st /\
  ((tk_start st < tk_start (inner_loop chars e st) <= e)%nat \/
   (tk_start (inner_loop chars e st) = tk_start st /\
    tk_beginning (inner_loop chars e st) = false /\
    tk_beginning st = true)).
Proof.
  intros Hcov. induction e as [|e IH]; intros He; [lia|].
  cbn [scan_end].
  assert (E : (tk_start st <? S e)%nat = true) by (apply Nat.ltb_lt; lia).
  rewrite E.
  destruct (String.eqb (join_chars chars (tk_start st) (S e)) " ") eqn:Esp.
  { rewrite scan_end_done by (cbn; lia). cbn. split; [reflexivity | left; lia]. }
  destruct (negb (Find symbol_table _ =? -1)) eqn:Ef.
  { rewrite scan_end_done by (cbn; lia). cbn. split; [reflexivity | left; lia]. }
  apply negb_false_iff, Z.eqb_eq in Ef.
  destruct (S e =? tk_start st + 1)%nat eqn:E1.
  2:{ apply Nat.eqb_neq in E1. destruct IH as (A & B); [lia|].
      split; [exact A|]. destruct B as [B | B]; [left; lia | right; exact B]. }
  apply Nat.eqb_eq in E1.
  destruct (nth_error chars (tk_start st)) as [c|] eqn:Ec;
    [|apply nth_error_None in Ec; lia].
  rewrite E1 in Esp, Ef |- *.
  rewrite (join_chars_single chars _ c Ec) in Esp, Ef |- *.
  destruct (Hcov c (nth_error_In _ _ Ec)) as [-> | Hin]; [discriminate|].
  destruct (IsAlpha U c && tk_beginning st) eqn:Em; [|contradiction].
  apply andb_prop in Em. destruct Em as [_ Eb].
  destruct (kSpaceSymbol U) as [|k ks] eqn:Ek; [contradiction|].
  cbn [append head_byte]. rewrite Ascii.eqb_refl. cbn.
  split; [reflexivity|]. right. auto.
Qed.

(** A pass that does not advance [start] was entered with [beginning]
    set and clears it, so that two passes advance. *)
Lemma scan_start_resolved chars :
  covered_chars symbol_table chars ->
  forall fuel st,
    (passes_left chars st < fuel)%nat ->
    exists r, outer_loop fuel chars st = Some r /\ tk_no_oov r = tk_no_oov st.
Proof.
  intros Hcov fuel. induction fuel as [|fuel IH]; intros st Hm; [lia|].
  cbn [scan_start]. destruct (tk_start st <? length chars)%nat eqn:E; [|eauto].
  apply Nat.ltb_lt in E.
  destruct (scan_end_resolved chars (length chars) st Hcov) as (Hn & Hadv); [lia|].
  destruct (IH (inner_loop chars (length chars) st)) as (r & Hr & Hr').
  - unfold passes_left in *. destruct Hadv as [A | (A & B & C)].
    + destruct (tk_beginning (inner_loop chars (length chars) st)),
               (tk_beginning st); lia.
    + rewrite A, B, C in *. lia.
  - exists r. split; [exact Hr | congruence].
Qed.

(** X5: a phrase each of whose codepoints is a space or, on its own, a
    vocabulary entry is fully resolved: SplitUTF8StringToWords returns
    (within two passes per codepoint) and its flag is true. *)
Theorem covered_phrase_is_resolved str words :
  covered_chars symbol_table (SplitUTF8StringToChars U (Trim U str)) ->
  exists ws,
    SplitUTF8StringToWords U symbol_table
      (2 * length (SplitUTF8StringToChars U (Trim U str)) + 2) str words
    = Some (true, ws).
Proof.
  intros Hcov. unfold SplitUTF8StringToWords.
  destruct (scan_start_resolved _ Hcov
              (2 * length (SplitUTF8StringToChars U (Trim U str)) + 2)
              (mkTok 0 true true words)) as (r & Hr & Hn).
  - unfold passes_left. cbn. lia.
  - rewrite Hr. cbn in Hn. rewrite Hn. eauto.
Qed.
End TokenizerResult.


Lemma covered_phrase_is_resolved_witness :
  exists ws,
    SplitUTF8StringToWords WenetUtils.utils Examples.vocab
      (2 * length (SplitUTF8StringToChars WenetUtils.utils
                     (Trim WenetUtils.utils Examples.e_acute)) + 2)
      Examples.e_acute []
    = Some (true, ws).
Proof.
  apply (covered_phrase_is_resolved WenetUtils.utils Examples.vocab
           Examples.e_acute []).
  intros c Hc. vm_compute in Hc. destruct Hc as [<- | []].
  right. vm_compute. discriminate.
Defined.

Lemma SplitUTF8StringToWords_returns_witness :
  exists r,
    SplitUTF8StringToWords WenetUtils.utils Examples.vocab
      (2 * length (SplitUTF8StringToChars WenetUtils.utils
                     (Trim WenetUtils.utils "a ?")) + 2) "a ?" []
    = Some r.
Proof.
  apply (SplitUTF8StringToWords_returns WenetUtils.utils Examples.vocab
           "a ?" []).
  intros c Hc. vm_compute in Hc.
  destruct Hc as [<- | [<- | [<- | []]]]; right; vm_compute; discriminate.
Defined.

(** ** BuildContextGraph: the shape of the automaton *)

Lemma valid_arc_mono g g' a :
  NumStates g <= NumStates g' -> valid_arc g a -> valid_arc g' a.
Proof. unfold valid_arc. lia. Qed.

Lemma interior_state_mono g g' x :
  NumStates g <= NumStates g' -> interior_state g x -> interior_state g' x.
Proof.
  intros H (Hf & a & w & Ha & Hv). split; [exact Hf|].
  exists a, w. split; [exact Ha | eapply valid_arc_mono; eassumption].
Qed.

Lemma start_state_ok_mono g g' x :
  NumStates g <= NumStates g' -> start_state_ok g x -> start_state_ok g' x.
Proof.
  intros H (Hf & Hv). split; [exact Hf|].
  eapply Forall_impl; [|exact Hv]. intros a. apply valid_arc_mono. exact H.
Qed.

Lemma chain_shaped_InitialFst : chain_shaped InitialFst 0.
Proof.
  split; [|split].
  - eexists. split; [reflexivity|]. split; [reflexivity | constructor].
  - intros s x Hs _ Hx. apply state_at_bounds in Hx. cbn in Hx. lia.
  - lia.
Qed.

Section ShapeFacts.
Variable U : StringUtils.
Variable cfg : ContextConfig.
Variable symbol_table : SymbolTable.

Abbreviation add_tokens := (AddWords U cfg symbol_table).
Abbreviation add_one := (AddPhrase U cfg symbol_table).
Abbreviation token_arc := (label_arc U cfg symbol_table).
Abbreviation body := (after_token U cfg symbol_table).

Lemma state_at_after_token_old w rest i prev esc g s x :
  s <> prev -> s <> next_of rest g ->
  state_at (body w rest i prev esc g) s = Some x ->
  state_at g s = Some x.
Proof.
  intros Hp Hn Hx.
  pose proof (state_at_bounds _ _ _ Hx) as Hb.
  rewrite NumStates_after_token in Hb.
  assert (Hs : 0 <= s < NumStates g).
  { destruct rest; cbn [next_of] in Hn; lia. }
  destruct (state_at_exists g s Hs) as (y & Hy).
  rewrite (state_at_after_token_ne U cfg symbol_table w rest i prev esc g s y Hp Hy) in Hx.
  congruence.
Qed.

(** One pass of the loop over [words] keeps the shape and moves the hole to
    the state it has added. *)
Lemma after_token_shaped w rest i prev esc g :
  ready g i prev -> chain_shaped g prev ->
  chain_shaped (body w rest i prev esc g) (next_of rest g).
Proof.
  intros R ((x0 & H0 & S0) & Hint & Hhole).
  assert (Hb : 0 <= prev < NumStates g).
  { destruct i; [destruct R as (-> & y & Hy) | destruct R as (_ & Hy)];
      eapply state_at_bounds; eassumption. }
  assert (Hle : NumStates g <= NumStates (body w rest i prev esc g)).
  { rewrite NumStates_after_token. destruct rest; lia. }
  assert (Hnext : valid_arc (body w rest i prev esc g)
                    (token_arc i w (next_of rest g))).
  { unfold valid_arc. rewrite NumStates_after_token. cbn [label_arc nextstate].
    destruct rest; cbn [next_of]; lia. }
  split; [|split].
  - destruct i as [|i].
    + destruct R as (-> & _).
      rewrite (state_at_after_token_prev U cfg symbol_table w rest 0 0 esc g x0 H0).
      eexists. split; [reflexivity|]. destruct S0 as (Hf & Hv).
      split; [exact Hf|]. cbn [arcs Nat.ltb Nat.leb]. apply Forall_app. split.
      * eapply Forall_impl; [|exact Hv]. intros a. apply valid_arc_mono. exact Hle.
      * constructor; [exact Hnext | constructor].
    + destruct R as (Hp & _). exists x0. split.
      * apply state_at_after_token_ne; [lia | exact H0].
      * eapply start_state_ok_mono; eassumption.
  - intros s x Hs Hn Hx. destruct (Z.eq_dec s prev) as [-> | Hsp].
    + destruct i as [|i]; [destruct R as (-> & _); lia|].
      destruct R as (_ & Hy).
      rewrite (state_at_after_token_prev U cfg symbol_table w rest (S i) prev esc g _ Hy) in Hx.
      injection Hx as <-. split; [reflexivity|].
      exists (token_arc (S i) w (next_of rest g)), (fneg esc).
      split; [reflexivity | exact Hnext].
    + apply state_at_after_token_old in Hx; [|exact Hsp | exact Hn].
      eapply interior_state_mono; [exact Hle|]. eapply Hint; eassumption.
  - intros Hn. destruct rest as [|w2 r2]; cbn [next_of] in *; [lia|].
    apply state_at_after_token_new. lia.
Qed.

Lemma AddWords_shaped ws i prev esc g :
  ready g i prev -> chain_shaped g prev -> ws <> [] \/ prev = 0 ->
  chain_shaped (add_tokens ws i prev esc g) 0.
Proof.
  revert i prev esc g. induction ws as [|w rest IH]; intros i prev esc g R S Hw.
  - destruct Hw as [Hw | ->]; [congruence | exact S].
  - rewrite AddWords_cons.
    pose proof (after_token_shaped w rest i prev esc g R S) as S'.
    destruct rest as [|w2 r2]; [exact S'|].
    apply IH; [| exact S' | left; discriminate].
    cbn [ready next_of].
    assert (Hb : 0 <= prev < NumStates g).
    { destruct i; [destruct R as (-> & y & Hy) | destruct R as (_ & Hy)];
        eapply state_at_bounds; eassumption. }
    split; [lia|]. apply state_at_after_token_new. lia.
Qed.

Lemma AddPhrase_shaped g ws :
  chain_shaped g 0 -> chain_shaped (add_one g ws) 0.
Proof.
  intros S. unfold AddPhrase. apply AddWords_shaped; [| exact S | right; reflexivity].
  destruct S as ((x0 & H0 & _) & _). cbn. eauto.
Qed.

(** What every [AddPhrase] keeps, the loop over the phrases keeps. *)
Lemma BuildLoop_preserves (P : StdVectorFst -> Prop) fuel contexts count g g' :
  (forall h ws, P h -> P (add_one h ws)) ->
  P g ->
  BuildLoop U cfg symbol_table fuel contexts count g = Some g' ->
  P g'.
Proof.
  intros Hstep. revert count g.
  induction contexts as [|c rest IH]; intros count g Hg H.
  - injection H as <-. exact Hg.
  - cbn [BuildLoop] in H. destruct (too_long cfg c); [eapply IH; eassumption|].
    destruct (count + 1 >? max_contexts cfg); [injection H as <-; exact Hg|].
    destruct (SplitUTF8StringToWords U symbol_table fuel (Trim U c) [])
      as [[[|] ws]|]; [| |discriminate]; cbn [negb] in H.
    + eapply IH; [|exact H]. apply Hstep. exact Hg.
    + eapply IH; eassumption.
Qed.

Lemma BuildOfst_shaped fuel contexts ofst :
  BuildOfst U cfg symbol_table fuel contexts = Some ofst ->
  chain_shaped ofst 0.
Proof.
  apply (BuildLoop_preserves (fun g => chain_shaped g 0)).
  - intros h ws. apply AddPhrase_shaped.
  - apply chain_shaped_InitialFst.
Qed.
End ShapeFacts.

(** X7: in the automaton BuildContextGraph builds (as handed to
    fst::Determinize), state 0 is final with weight One, every other state
    is not final and has exactly two arcs, a token's arc followed by an arc
    labeled 0 that leads to state 0, and every arc leads to a state of the
    automaton. *)
Theorem built_automaton_shape U cfg symbol_table fuel contexts ofst :
  BuildOfst U cfg symbol_table fuel contexts = Some ofst ->
  Final ofst 0 = Some Weight_One /\
  (forall s x, 0 < s -> state_at ofst s = Some x ->
     final x = Weight_Zero /\ exists a w, arcs x = [a; mkArc 0 0 w 0]) /\
  (forall s x a, state_at ofst s = Some x -> In a (arcs x) ->
     0 <= nextstate a < NumStates ofst).
Proof.
  intros H. apply BuildOfst_shaped in H.
  destruct H as ((x0 & H0 & Hf0 & Hv0) & Hint & _).
  split; [unfold Final; rewrite H0; cbn; congruence|]. split.
  - intros s x Hs Hx. destruct (Hint s x Hs ltac:(lia) Hx) as (Hf & a & w & Ha & _).
    split; [exact Hf | eauto].
  - intros s x a Hx Hin.
    assert (Hs : 0 <= s) by (apply state_at_bounds in Hx; lia).
    destruct (Z.eq_dec s 0) as [-> | Hne].
    + rewrite H0 in Hx. injection Hx as <-.
      rewrite Forall_forall in Hv0. apply Hv0. exact Hin.
    + destruct (Hint s x ltac:(lia) ltac:(lia) Hx) as (_ & b & w & Ha & Hv).
      rewrite Ha in Hin. destruct Hin as [<- | [<- | []]]; [exact Hv|].
      cbn. apply state_at_bounds in H0. lia.
Qed.

Lemma built_automaton_shape_witness :
  BuildOfst WenetUtils.utils (Examples.config 100 10) Examples.vocab 10
    ["a b a"%string; "a"%string]
  = Some (mkFst 0
      [mkState Weight_One [mkArc 1 1 (float_of_Z 3) 1; mkArc 1 1 (float_of_Z 3) 0];
       mkState Weight_Zero [mkArc 3 3 (float_of_Z 4) 2;
                            mkArc 0 0 (fneg (float_of_Z 3)) 0];
       mkState Weight_Zero [mkArc 1 1 (float_of_Z 5) 0;
                            mkArc 0 0 (fneg (float_of_Z 7)) 0]]) /\
  Final (mkFst 0
      [mkState Weight_One [mkArc 1 1 (float_of_Z 3) 1; mkArc 1 1 (float_of_Z 3) 0];
       mkState Weight_Zero [mkArc 3 3 (float_of_Z 4) 2;
                            mkArc 0 0 (fneg (float_of_Z 3)) 0];
       mkState Weight_Zero [mkArc 1 1 (float_of_Z 5) 0;
                            mkArc 0 0 (fneg (float_of_Z 7)) 0]]) 0
  = Some Weight_One.
Proof.
  split; [reflexivity|].
  refine (proj1 (built_automaton_shape WenetUtils.utils (Examples.config 100 10)
                   Examples.vocab 10 ["a b a"%string; "a"%string] _ _)).
  reflexivity.
Defined.

(** ** GetNextState on the automaton that was built *)

Lemma GetNextState_returns g s t out l l0 :
  arcs_of g s = Some l ->
  arcs_of g 0 = Some l0 ->
  Forall (fun a => Final g (nextstate a) <> None) l ->
  Forall (fun a => Final g (nextstate a) <> None) l0 ->
  exists n r, GetNextState (Some g) s t out = Some (n, r).
Proof.
  intros Hl H0 Wl W0. unfold GetNextState. rewrite Hl, H0.
  destruct (scan_cur_returns g l s t out Wl) as (n1 & r1 & E1). rewrite E1.
  destruct (negb (n1 =? 0)); [eauto|]. apply scan_zero_returns. exact W0.
Qed.

Lemma valid_arc_Final g a : valid_arc g a -> Final g (nextstate a) <> None.
Proof.
  intros H. destruct (state_at_exists g (nextstate a) H) as (x & Hx).
  unfold Final. rewrite Hx. discriminate.
Qed.

(** X8: on the automaton BuildContextGraph builds (as handed to
    fst::Determinize), GetNextState returns for every state of the
    automaton, every token id and every entry value of the out-parameters,
    and the state it returns is again a state of the automaton: the lookup
    can be iterated from state 0 without ever leaving the automaton. *)
Theorem lookup_stays_in_built_automaton
    U cfg symbol_table fuel contexts ofst cur_state word_id out :
  BuildOfst U cfg symbol_table fuel contexts = Some ofst ->
  0 <= cur_state < NumStates ofst ->
  exists n r,
    GetNextState (Some ofst) cur_state word_id out = Some (n, r) /\
    0 <= n < NumStates ofst.
Proof.
  intros H Hs. apply BuildOfst_shaped in H.
  destruct H as ((x0 & H0 & _ & Hv0) & Hint & _).
  assert (Hall : forall s x, state_at ofst s = Some x ->
                             Forall (valid_arc ofst) (arcs x)).
  { intros s x Hx. destruct (Z.eq_dec s 0) as [-> | Hne].
    - rewrite H0 in Hx. injection Hx as <-. exact Hv0.
    - pose proof (state_at_bounds _ _ _ Hx).
      destruct (Hint s x ltac:(lia) ltac:(lia) Hx) as (_ & a & w & Ha & Hv).
      rewrite Ha. constructor; [exact Hv|]. constructor; [|constructor].
      unfold valid_arc. cbn. apply state_at_bounds in H0. lia. }
  destruct (state_at_exists ofst cur_state Hs) as (x & Hx).
  assert (Hl : arcs_of ofst cur_state = Some (arcs x))
    by (unfold arcs_of; rewrite Hx; reflexivity).
  assert (Hl0 : arcs_of ofst 0 = Some (arcs x0))
    by (unfold arcs_of; rewrite H0; reflexivity).
  destruct (GetNextState_returns ofst cur_state word_id out _ _ Hl Hl0)
    as (n & r & E).
  - eapply Forall_impl; [|exact (Hall _ _ Hx)]. intros a. apply valid_arc_Final.
  - eapply Forall_impl; [|exact (Hall _ _ H0)]. intros a. apply valid_arc_Final.
  - exists n, r. split; [exact E|].
    destruct (GetNextState_dest _ _ _ _ _ _ E)
      as [-> | [(l & a & Hla & Hin & _ & <-) | (l & a & Hla & Hin & _ & <-)]].
    + apply state_at_bounds in H0. lia.
    + rewrite Hl in Hla. injection Hla as <-.
      pose proof (Hall _ _ Hx) as Hf. rewrite Forall_forall in Hf.
      apply Hf. exact Hin.
    + rewrite Hl0 in Hla. injection Hla as <-.
      pose proof (Hall _ _ H0) as Hf. rewrite Forall_forall in Hf.
      apply Hf. exact Hin.
Qed.

Lemma lookup_stays_in_built_automaton_witness :
  exists n r,
    GetNextState
      (BuildOfst WenetUtils.utils (Examples.config 100 10) Examples.vocab 10
         ["a b a"%string]) 2 3 Examples.out0 = Some (n, r) /\
    0 <= n < 3.
Proof.
  destruct (lookup_stays_in_built_automaton WenetUtils.utils
              (Examples.config 100 10) Examples.vocab 10 ["a b a"%string]
              (mkFst 0
                 [mkState Weight_One [mkArc 1 1 (float_of_Z 3) 1];
                  mkState Weight_Zero [mkArc 3 3 (float_of_Z 4) 2;
                                       mkArc 0 0 (fneg (float_of_Z 3)) 0];
                  mkState Weight_Zero [mkArc 1 1 (float_of_Z 5) 0;
                                       mkArc 0 0 (fneg (float_of_Z 7)) 0]])
              2 3 Examples.out0) as (n & r & E & Hn).
  - reflexivity.
  - cbn. lia.
  - exists n, r. split; [exact E | exact Hn].
Defined.

(** ** BuildContextGraph: size, start arcs, budget *)

Section SizeFacts.
Variable U : StringUtils.
Variable cfg : ContextConfig.
Variable symbol_table : SymbolTable.

Abbreviation add_toks := (AddWords U cfg symbol_table).
Abbreviation add_phr := (AddPhrase U cfg symbol_table).

Lemma NumStates_AddWords_exact ws i prev esc g :
  NumStates (add_toks ws i prev esc g) =
  NumStates g + Z.of_nat (pred (length ws)).
Proof.
  revert i prev esc g. induction ws as [|w rest IH]; intros i prev esc g.
  - cbn. lia.
  - rewrite AddWords_cons, IH, NumStates_after_token.
    destruct rest; cbn [length pred]; lia.
Qed.

Lemma NumStates_fold_AddPhrase wss g :
  NumStates (fold_left add_phr wss g) = NumStates g + interior_count wss.
Proof.
  revert g. induction wss as [|ws wss IH]; intros g.
  - cbn. lia.
  - cbn [fold_left interior_count fold_right]. rewrite IH.
    unfold AddPhrase. rewrite NumStates_AddWords_exact.
    fold (interior_count wss). lia.
Qed.

(** The arcs of state 0 after a phrase: the ones before, then the arc of
    the phrase's first token. *)
Lemma AddPhrase_start_labels g ws x :
  state_at g 0 = Some x ->
  exists x', state_at (add_phr g ws) 0 = Some x' /\
             final x' = final x /\
             map ilabel (arcs x') = map ilabel (arcs x) ++ first_label symbol_table ws.
Proof.
  intros Hx. unfold AddPhrase. destruct ws as [|w rest].
  - exists x. cbn. rewrite app_nil_r. auto.
  - rewrite (AddWords_prev U cfg symbol_table w rest 0 0 fzero g x Hx).
    eexists. split; [reflexivity|]. split; [reflexivity|].
    cbn. rewrite map_app. reflexivity.
Qed.

Lemma fold_AddPhrase_start_labels wss g x :
  state_at g 0 = Some x ->
  exists x', state_at (fold_left add_phr wss g) 0 = Some x' /\
             final x' = final x /\
             map ilabel (arcs x') =
               map ilabel (arcs x) ++ flat_map (first_label symbol_table) wss.
Proof.
  revert g x. induction wss as [|ws wss IH]; intros g x Hx.
  - exists x. cbn. rewrite app_nil_r. auto.
  - cbn [fold_left flat_map].
    destruct (AddPhrase_start_labels g ws x Hx) as (x1 & H1 & F1 & L1).
    destruct (IH _ x1 H1) as (x2 & H2 & F2 & L2).
    exists x2. split; [exact H2|]. split; [congruence|].
    rewrite L2, L1, app_assoc. reflexivity.
Qed.

Lemma BuildLoop_no_budget fuel contexts count g :
  max_contexts cfg <= count ->
  BuildLoop U cfg symbol_table fuel contexts count g = Some g.
Proof.
  intros H. induction contexts as [|c rest IH]; [reflexivity|].
  cbn [BuildLoop]. destruct (too_long cfg c); [exact IH|].
  assert (E : (count + 1 >? max_contexts cfg) = true) by (apply Z.gtb_lt; lia).
  rewrite E. reflexivity.
Qed.
End SizeFacts.

(** X9: the automaton BuildContextGraph hands to fst::Determinize has one
    state for the start and one for every token but the last of every
    accepted phrase (counted within the budget and fully resolved): phrases
    share no state but state 0, also when they share a prefix. *)
Theorem built_automaton_size U cfg symbol_table fuel contexts :
  (forall c, In c (counted cfg contexts) ->
             words_of U symbol_table fuel c <> None) ->
  exists ofst,
    BuildOfst U cfg symbol_table fuel contexts = Some ofst /\
    NumStates ofst =
      1 + fold_right (fun ws n => Z.of_nat (pred (length ws)) + n) 0
            (accepted_words U cfg symbol_table fuel contexts).
Proof.
  intros H. eexists. split; [apply BuildOfst_refines; exact H|].
  rewrite NumStates_fold_AddPhrase. reflexivity.
Qed.

Lemma built_automaton_size_witness :
  exists ofst,
    BuildOfst WenetUtils.utils (Examples.config 100 10) Examples.vocab 10
      ["a b a"%string; "a b"%string; "?"%string] = Some ofst /\
    NumStates ofst = 4.
Proof.
  refine (built_automaton_size WenetUtils.utils (Examples.config 100 10)
            Examples.vocab 10 ["a b a"%string; "a b"%string; "?"%string] _).
  intros c Hc. vm_compute in Hc.
  destruct Hc as [<- | [<- | [<- | []]]]; vm_compute; discriminate.
Defined.

(** X10: the labels of the arcs that leave state 0 of the built automaton
    are, in order, the ids of the first tokens of the accepted phrases that
    have a token: one arc per phrase, also for phrases that begin with the
    same token. *)
Theorem start_arcs_are_first_tokens U cfg symbol_table fuel contexts :
  (forall c, In c (counted cfg contexts) ->
             words_of U symbol_table fuel c <> None) ->
  exists ofst l0,
    BuildOfst U cfg symbol_table fuel contexts = Some ofst /\
    arcs_of ofst 0 = Some l0 /\
    map ilabel l0 =
      flat_map (fun ws => match ws with
                          | [] => []
                          | w :: _ => [Find symbol_table w]
                          end)
        (accepted_words U cfg symbol_table fuel contexts).
Proof.
  intros H.
  destruct (fold_AddPhrase_start_labels U cfg symbol_table
              (accepted_words U cfg symbol_table fuel contexts)
              InitialFst _ InitialFst_start) as (x & Hx & _ & Hl).
  eexists. exists (arcs x). split; [apply BuildOfst_refines; exact H|].
  split; [unfold arcs_of; rewrite Hx; reflexivity | exact Hl].
Qed.

Lemma start_arcs_are_first_tokens_witness :
  exists ofst l0,
    BuildOfst WenetUtils.utils (Examples.config 100 10) Examples.vocab 10
      ["a b a"%string; "a b"%string; "?"%string] = Some ofst /\
    arcs_of ofst 0 = Some l0 /\
    map ilabel l0 = [1; 1].
Proof.
  refine (start_arcs_are_first_tokens WenetUtils.utils (Examples.config 100 10)
            Examples.vocab 10 ["a b a"%string; "a b"%string; "?"%string] _).
  intros c Hc. vm_compute in Hc.
  destruct Hc as [<- | [<- | [<- | []]]]; vm_compute; discriminate.
Defined.

(** X11: with max_contexts <= 0 no phrase is accepted: BuildContextGraph
    builds the automaton of state 0 alone, without arcs, whatever the
    phrases are, and the tokenizer is not called (the result does not
    depend on it returning). *)
Theorem no_budget_no_phrase U cfg symbol_table fuel contexts :
  max_contexts cfg <= 0 ->
  BuildOfst U cfg symbol_table fuel contexts = Some InitialFst /\
  arcs_of InitialFst 0 = Some [] /\ NumStates InitialFst = 1.
Proof.
  intros H. split; [|split; reflexivity].
  unfold BuildOfst. apply BuildLoop_no_budget. exact H.
Qed.

Lemma no_budget_no_phrase_witness :
  BuildOfst WenetUtils.utils (Examples.config 100 0) Examples.vocab 0
    [Examples.euro; "a"%string] = Some InitialFst.
Proof.
  refine (proj1 (no_budget_no_phrase WenetUtils.utils (Examples.config 100 0)
                   Examples.vocab 0 [Examples.euro; "a"%string] _)).
  cbn. lia.
Defined.

(** ** Walking a phrase through the automaton *)

Lemma first_with_label l a :
  NoDup (map ilabel l) -> In a l ->
  exists pre post,
    l = pre ++ a :: post /\ Forall (fun b => ilabel b <> ilabel a) pre.
Proof.
  intros Hnd Hin. destruct (in_split _ _ Hin) as (pre & post & ->).
  exists pre, post. split; [reflexivity|].
  rewrite map_app in Hnd. cbn [map] in Hnd. apply NoDup_remove_2 in Hnd.
  apply Forall_forall. intros b Hb E. apply Hnd. apply in_or_app. left.
  rewrite <- E. apply in_map. exact Hb.
Qed.

Section WalkFacts.
Variable U : StringUtils.
Variable cfg : ContextConfig.
Variable symbol_table : SymbolTable.
Variable g : StdVectorFst.
Variable l0 : list StdArc.
Hypothesis start_arcs : arcs_of g 0 = Some l0.
Hypothesis start_labels_differ : NoDup (map ilabel l0).
Hypothesis start_is_final : Final g 0 = Some Weight_One.
Hypothesis others_not_final :
  forall s x, 0 < s -> state_at g s = Some x -> final x = Weight_Zero.

Lemma interior_not_final s l :
  0 < s -> arcs_of g s = Some l -> Final g s = Some Weight_Zero.
Proof.
  intros Hs Hl. unfold arcs_of, Final in *.
  destruct (state_at g s) as [x|] eqn:E; [|discriminate].
  cbn. rewrite (others_not_final s x Hs E). reflexivity.
Qed.

(** A phrase that is laid out is walked by the lookup, when its token ids
    are not 0 and its last token does not label an arc of state 0. *)
Lemma laid_walks ws i prev esc :
  laid U cfg symbol_table g ws i prev esc ->
  (ws = [] -> prev = 0) ->
  Forall (fun w => Find symbol_table w <> 0) ws ->
  ~ In (Find symbol_table (last ws ""%string)) (map ilabel l0) ->
  walks U cfg symbol_table g ws i prev.
Proof.
  revert i prev esc. induction ws as [|w rest IH]; intros i prev esc Hl Hp Hnz Hlast.
  - cbn. apply Hp. reflexivity.
  - apply laid_cons in Hl. destruct Hl as (next & Hn & Hat & Hr).
    pose proof (Forall_inv Hnz) as Hw. apply Forall_inv_tail in Hnz.
    assert (Hm : labeled_match (Find symbol_table w)
                   (label_arc U cfg symbol_table i w next) = true).
    { unfold labeled_match. cbn [label_arc ilabel].
      apply Z.eqb_neq in Hw. rewrite Hw, Z.eqb_refl. reflexivity. }
    cbn [walks]. exists next. split.
    + intros out. unfold GetNextState. destruct rest as [|w2 r2].
      * specialize (Hn eq_refl). subst next. destruct i as [|i].
        -- exfalso. destruct Hat as (-> & l & Hl & Hin).
           rewrite start_arcs in Hl. injection Hl as <-.
           apply Hlast. cbn [last].
           change (Find symbol_table w)
             with (ilabel (label_arc U cfg symbol_table 0 w 0)).
           apply in_map. exact Hin.
        -- destruct Hat as (Hb & Ha). rewrite Ha.
           pose proof (scan_cur_first_match g [] _ [escape_arc esc] prev _ out
                         Weight_One (Forall_nil _) Hm start_is_final) as Hs.
           cbn [app] in Hs. rewrite Hs.
           cbn [label_arc nextstate negb Z.eqb]. rewrite start_arcs.
           rewrite scan_zero_no_match.
           ++ assert (E : (prev =? 0) = false) by (apply Z.eqb_neq; lia).
              rewrite E. reflexivity.
           ++ apply Forall_forall. intros b Hb' E. apply Hlast. cbn [last].
              rewrite <- E. apply in_map. exact Hb'.
      * pose proof Hr as Hr'. apply laid_cons in Hr'.
        destruct Hr' as (nx & _ & (Hnb & Hna) & _).
        pose proof (interior_not_final next _ ltac:(lia) Hna) as Hfn.
        assert (En : negb (next =? 0) = true).
        { apply negb_true_iff, Z.eqb_neq. lia. }
        destruct i as [|i].
        -- destruct Hat as (-> & l & Hl & Hin).
           rewrite start_arcs in Hl. injection Hl as <-. rewrite start_arcs.
           destruct (first_with_label l0 _ start_labels_differ Hin)
             as (pre & post & Hsplit & Hpre).
           rewrite Hsplit.
           rewrite (scan_cur_first_match g pre _ post 0 _ out Weight_Zero);
             [| | exact Hm | exact Hfn].
           ++ cbn [label_arc nextstate]. rewrite En. reflexivity.
           ++ eapply Forall_impl; [|exact Hpre]. intros b Hb.
              unfold labeled_match. cbn [label_arc ilabel] in Hb.
              apply Z.eqb_neq in Hb. rewrite Hb. apply andb_false_r.
        -- destruct Hat as (Hb & Ha). rewrite Ha.
           pose proof (scan_cur_first_match g [] _ [escape_arc esc] prev _ out
                         Weight_Zero (Forall_nil _) Hm Hfn) as Hs.
           cbn [app] in Hs. rewrite Hs.
           cbn [label_arc nextstate]. rewrite En.
           assert (E : (prev =? 0) = false) by (apply Z.eqb_neq; lia).
           rewrite E. reflexivity.
    + destruct rest as [|w2 r2]; [cbn; apply Hn; reflexivity|].
      apply (IH (S i) next _ Hr); [discriminate | exact Hnz | exact Hlast].
Qed.
End WalkFacts.

(** X12: in the automaton BuildContextGraph builds (as handed to
    fst::Determinize), when the accepted phrases begin with pairwise
    different tokens, looking up the tokens of an accepted phrase one after
    the other from state 0 follows the phrase, provided none of its token
    ids is 0 and its last token begins no accepted phrase: the i-th lookup
    returns the score of the i-th token, only the first sets
    is_start_boundary, only the last sets is_end_boundary, and the last
    returns to state 0. *)
Theorem phrase_is_walked U cfg symbol_table fuel contexts c ws :
  (forall c', In c' (counted cfg contexts) ->
              words_of U symbol_table fuel c' <> None) ->
  In c (counted cfg contexts) ->
  words_of U symbol_table fuel c = Some (true, ws) ->
  Forall (fun w => Find symbol_table w <> 0) ws ->
  NoDup (flat_map (first_label symbol_table)
           (accepted_words U cfg symbol_table fuel contexts)) ->
  ~ In (Find symbol_table (last ws ""%string))
       (flat_map (first_label symbol_table)
          (accepted_words U cfg symbol_table fuel contexts)) ->
  exists ofst,
    BuildOfst U cfg symbol_table fuel contexts = Some ofst /\
    walks U cfg symbol_table ofst ws 0 0.
Proof.
  intros H Hc Hw Hnz Hnd Hlast.
  destruct (BuildOfst_laid U cfg symbol_table fuel contexts c ws H Hc Hw)
    as (ofst & Ho & Hl).
  exists ofst. split; [exact Ho|].
  pose proof (BuildOfst_shaped U cfg symbol_table fuel contexts ofst Ho)
    as ((x0 & H0 & Hf0 & _) & Hint & _).
  rewrite (BuildOfst_refines U cfg symbol_table fuel contexts H) in Ho.
  injection Ho as Ho.
  destruct (fold_AddPhrase_start_labels U cfg symbol_table
              (accepted_words U cfg symbol_table fuel contexts)
              InitialFst _ InitialFst_start) as (x & Hx & _ & Hlab).
  rewrite Ho in Hx. rewrite H0 in Hx. injection Hx as <-. cbn [app] in Hlab.
  apply (laid_walks U cfg symbol_table ofst (arcs x0)) with (esc := fzero).
  - unfold arcs_of. rewrite H0. reflexivity.
  - rewrite Hlab. exact Hnd.
  - unfold Final. rewrite H0. cbn. congruence.
  - intros s x Hs Hx. apply (Hint s x Hs ltac:(lia) Hx).
  - exact Hl.
  - reflexivity.
  - exact Hnz.
  - rewrite Hlab. exact Hlast.
Qed.

Lemma phrase_is_walked_witness :
  exists ofst,
    BuildOfst WenetUtils.utils (Examples.config 100 10) Examples.vocab 10
      ["a b"%string; Examples.e_acute] = Some ofst /\
    walks WenetUtils.utils (Examples.config 100 10) Examples.vocab ofst
      [Examples.marked_a; (WenetUtils.kSpaceSymbol ++ "b")%string] 0 0.
Proof.
  refine (phrase_is_walked WenetUtils.utils (Examples.config 100 10)
            Examples.vocab 10 ["a b"%string; Examples.e_acute] "a b"
            [Examples.marked_a; (WenetUtils.kSpaceSymbol ++ "b")%string]
            _ _ _ _ _ _).
  - intros c Hc. vm_compute in Hc.
    destruct Hc as [<- | [<- | []]]; vm_compute; discriminate.
  - vm_compute. auto.
  - reflexivity.
  - repeat constructor; vm_compute; discriminate.
  - vm_compute. repeat constructor; cbn; intuition discriminate.
  - vm_compute. intuition discriminate.
Defined.

(** ** GetNextState: a match at cur_state *)

Lemma GetNextState_match_elsewhere_witness :
  GetNextState
    (Some (mkFst 0
       [mkState Weight_One [mkArc 1 1 (float_of_Z 3) 1];
        mkState Weight_Zero [mkArc 3 3 (float_of_Z 4) 0;
                             mkArc 0 0 (fneg (float_of_Z 3)) 0]]))
    0 1 Examples.out0
  = Some (1, mkOut (float_of_Z 3) true false).
Proof.
  apply (GetNextState_match_elsewhere _ [] (mkArc 1 1 (float_of_Z 3) 1) []
           0 1 Examples.out0 Weight_Zero).
  - reflexivity.
  - constructor.
  - reflexivity.
  - reflexivity.
  - discriminate.
Defined.

Lemma GetNextState_match_into_start_witness :
  GetNextState
    (Some (mkFst 0
       [mkState Weight_One [mkArc 1 1 (float_of_Z 3) 1];
        mkState Weight_Zero [mkArc 1 1 (float_of_Z 4) 0;
                             mkArc 0 0 (fneg (float_of_Z 3)) 0]]))
    1 1 Examples.out0
  = Some (1, mkOut (fadd (float_of_Z 4) (float_of_Z 3)) false true).
Proof.
  apply (GetNextState_match_into_start _ [] (mkArc 1 1 (float_of_Z 4) 0)
           [mkArc 0 0 (fneg (float_of_Z 3)) 0]
           [] (mkArc 1 1 (float_of_Z 3) 1) []
           1 1 Examples.out0 Weight_One Weight_Zero).
  - reflexivity.
  - constructor.
  - reflexivity.
  - reflexivity.
  - reflexivity.
  - reflexivity.
  - constructor.
  - reflexivity.
  - reflexivity.
Defined.

(** ** BuildContextGraph: the two tags in the symbol table *)

Lemma find_app_none {A} (f : A -> bool) l l' :
  find f l = None -> find f (l ++ l') = find f l'.
Proof.
  induction l as [|x l IH]; [reflexivity|]. cbn.
  destruct (f x); [discriminate | exact IH].
Qed.

Lemma find_app_some {A} (f : A -> bool) l l' p :
  find f l = Some p -> find f (l ++ l') = Some p.
Proof.
  induction l as [|x l IH]; [discriminate|]. cbn.
  destruct (f x); [auto | exact IH].
Qed.

Lemma lookup_symbol_present t s :
  In s (map fst (symbols t)) -> exists p, lookup_symbol t s = Some p.
Proof.
  unfold lookup_symbol. intros H.
  destruct (find (fun p => String.eqb (fst p) s) (symbols t)) as [p|] eqn:E;
    [eauto|].
  apply in_map_iff in H. destruct H as (q & <- & Hq).
  pose proof (find_none _ _ E q Hq) as F. cbn in F.
  rewrite String.eqb_refl in F. discriminate.
Qed.

(** What [AddSymbol] returns is the id under which the symbol is found
    afterwards. *)
Lemma Find_AddSymbol_same t s :
  Find (fst (AddSymbol t s)) s = snd (AddSymbol t s) /\
  In s (map fst (symbols (fst (AddSymbol t s)))).
Proof.
  unfold AddSymbol, Find. destruct (lookup_symbol t s) as [p|] eqn:E; cbn [fst snd].
  - rewrite E. split; [reflexivity|].
    unfold lookup_symbol in E. pose proof (find_some _ _ E) as (Hin & Hq).
    apply String.eqb_eq in Hq. rewrite <- Hq. apply in_map. exact Hin.
  - unfold lookup_symbol in *. cbn [symbols].
    rewrite (find_app_none _ _ _ E). cbn. rewrite String.eqb_refl. cbn.
    split; [reflexivity|]. rewrite map_app. apply in_or_app. right. left. reflexivity.
Qed.

(** A symbol that is in the table keeps its id. *)
Lemma Find_AddSymbol_other t s x :
  In x (map fst (symbols t)) ->
  Find (fst (AddSymbol t s)) x = Find t x /\
  In x (map fst (symbols (fst (AddSymbol t s)))).
Proof.
  intros H. destruct (lookup_symbol_present t x H) as (p & Hp).
  unfold AddSymbol, Find. destruct (lookup_symbol t s) as [q|]; cbn [fst].
  - auto.
  - unfold lookup_symbol in *. cbn [symbols].
    rewrite (find_app_some _ _ _ _ Hp), Hp. split; [reflexivity|].
    rewrite map_app. apply in_or_app. left. exact H.
Qed.

(** X13: after BuildContextGraph (with an empty phrase list as well), the
    object holds the symbol table it was given, start_tag_id_ and
    end_tag_id_ are the ids under which "<context>" and "</context>" are
    found in that table, and every symbol that was in the table before is
    found under the id it had. *)
Theorem tags_are_registered U Determinize fuel self contexts symbol_table self' t' :
  BuildContextGraph U Determinize fuel self contexts symbol_table
    = Some (self', t') ->
  symbol_table_ self' = Some t' /\
  Find t' "<context>" = start_tag_id_ self' /\
  Find t' "</context>" = end_tag_id_ self' /\
  forall s, In s (map fst (symbols symbol_table)) ->
            Find t' s = Find symbol_table s.
Proof.
  unfold BuildContextGraph.
  pose proof (Find_AddSymbol_same symbol_table "<context>") as (A1 & I1).
  destruct (AddSymbol symbol_table "<context>") as [t1 a] eqn:E1.
  cbn [fst snd] in A1, I1.
  pose proof (Find_AddSymbol_same t1 "</context>") as (A2 & _).
  pose proof (Find_AddSymbol_other t1 "</context>" "<context>" I1) as (B2 & _).
  assert (Keep : forall s, In s (map fst (symbols symbol_table)) ->
            Find (fst (AddSymbol t1 "</context>")) s = Find symbol_table s).
  { intros s Hs.
    pose proof (Find_AddSymbol_other symbol_table "<context>" s Hs) as (K1 & J1).
    rewrite E1 in K1, J1. cbn [fst] in K1, J1.
    pose proof (Find_AddSymbol_other t1 "</context>" s J1) as (K2 & _).
    congruence. }
  destruct (AddSymbol t1 "</context>") as [t2 b] eqn:E2.
  cbn [fst snd] in A2, B2, Keep.
  intros H.
  assert (R : symbol_table_ self' = Some t2 /\ start_tag_id_ self' = a /\
              end_tag_id_ self' = b /\ t' = t2).
  { destruct contexts as [|c rest].
    - injection H as <- <-. cbn. auto.
    - destruct (BuildOfst U (config_ self) t2 fuel (c :: rest)); [|discriminate].
      injection H as <- <-. cbn. auto. }
  destruct R as (R1 & R2 & R3 & ->).
  split; [exact R1|]. split; [congruence|]. split; [congruence | exact Keep].
Qed.

Lemma tags_are_registered_witness :
  BuildContextGraph WenetUtils.utils (fun g => g) 10
    (mkContextGraph (Examples.config 100 10) None None 0 0)
    ["a"%string] Examples.vocab
  = Some (mkContextGraph (Examples.config 100 10)
            (Some (mkFst 0 [mkState Weight_One [mkArc 1 1 (float_of_Z 3) 0]]))
            (Some (mkSymbolTable
                     (symbols Examples.vocab ++
                        [("<context>"%string, 4); ("</context>"%string, 5)]) 6))
            4 5,
          mkSymbolTable
            (symbols Examples.vocab ++
               [("<context>"%string, 4); ("</context>"%string, 5)]) 6) /\
  Find (mkSymbolTable
          (symbols Examples.vocab ++
             [("<context>"%string, 4); ("</context>"%string, 5)]) 6)
       "<context>" = 4.
Proof.
  split; [reflexivity|].
  refine (proj1 (proj2 (tags_are_registered WenetUtils.utils (fun g => g) 10
            (mkContextGraph (Examples.config 100 10) None None 0 0)
            ["a"%string] Examples.vocab
            (mkContextGraph (Examples.config 100 10)
               (Some (mkFst 0 [mkState Weight_One [mkArc 1 1 (float_of_Z 3) 0]]))
               (Some (mkSymbolTable
                        (symbols Examples.vocab ++
                           [("<context>"%string, 4); ("</context>"%string, 5)]) 6))
               4 5)
            _ _))).
  reflexivity.
Defined.

(** ** SplitUTF8StringToWords: the longest run first *)

(** X16: a phrase whose codepoints together spell a vocabulary entry (in the
    marked form when the phrase is alphabetic) and not a single space
    becomes that one token in the first pass: the routine returns true and
    appends exactly this token. *)
Theorem whole_phrase_is_one_token U symbol_table fuel str words :
  SplitUTF8StringToChars U (Trim U str) <> [] ->
  String.eqb
    (join_chars (SplitUTF8StringToChars U (Trim U str)) 0
       (length (SplitUTF8StringToChars U (Trim U str)))) " " = false ->
  Find symbol_table
    (if IsAlpha U (join_chars (SplitUTF8StringToChars U (Trim U str)) 0
                     (length (SplitUTF8StringToChars U (Trim U str))))
     then (kSpaceSymbol U ++
           join_chars (SplitUTF8StringToChars U (Trim U str)) 0
             (length (SplitUTF8StringToChars U (Trim U str))))%string
     else join_chars (SplitUTF8StringToChars U (Trim U str)) 0
            (length (SplitUTF8StringToChars U (Trim U str)))) <> -1 ->
  SplitUTF8StringToWords U symbol_table (S (S fuel)) str words =
    Some (true,
          words ++
          [if IsAlpha U (join_chars (SplitUTF8StringToChars U (Trim U str)) 0
                           (length (SplitUTF8StringToChars U (Trim U str))))
           then (kSpaceSymbol U ++
                 join_chars (SplitUTF8StringToChars U (Trim U str)) 0
                   (length (SplitUTF8StringToChars U (Trim U str))))%string
           else join_chars (SplitUTF8StringToChars U (Trim U str)) 0
                  (length (SplitUTF8StringToChars U (Trim U str)))]).
Proof.
  unfold SplitUTF8StringToWords.
  set (chars := SplitUTF8StringToChars U (Trim U str)).
  intros Hne Hsp Hf.
  destruct (length chars) as [|e] eqn:En;
    [destruct chars; [congruence | discriminate]|].
  assert (E0 : (0 <? S e)%nat = true) by reflexivity.
  cbn [scan_start tk_start]. rewrite En, E0.
  cbn [scan_end tk_start tk_beginning tk_no_oov tk_words]. rewrite E0.
  rewrite Hsp, andb_true_r. apply Z.eqb_neq in Hf. rewrite Hf. cbn [negb].
  rewrite scan_end_done by (cbn; lia).
  cbn [tk_start]. rewrite Nat.ltb_irrefl. reflexivity.
Qed.

Lemma whole_phrase_is_one_token_witness :
  SplitUTF8StringToWords WenetUtils.utils Examples.vocab 2 "a" []
    = Some (true, [Examples.marked_a]).
Proof.
  refine (whole_phrase_is_one_token WenetUtils.utils Examples.vocab 0 "a" []
            _ _ _).
  - discriminate.
  - reflexivity.
  - vm_compute. discriminate.
Defined.

(** ** BuildContextGraph: when it returns *)

Lemma BuildLoop_returns_tokenized U cfg symbol_table fuel contexts count g g' :
  BuildLoop U cfg symbol_table fuel contexts count g = Some g' ->
  forall c,
    In c (firstn (Z.to_nat (max_contexts cfg - count)) (within_length cfg contexts)) ->
    words_of U symbol_table fuel c <> None.
Proof.
  revert count g. induction contexts as [|c0 rest IH]; intros count g H c Hc.
  - cbn in Hc. destruct (Z.to_nat (max_contexts cfg - count)); contradiction.
  - cbn [BuildLoop within_length filter] in H, Hc.
    destruct (too_long cfg c0); cbn [negb] in Hc; [eapply IH; eassumption|].
    destruct (count + 1 >? max_contexts cfg) eqn:Ec.
    + apply Z.gtb_lt in Ec.
      replace (Z.to_nat (max_contexts cfg - count)) with O in Hc by lia.
      contradiction.
    + assert (Hle : count + 1 <= max_contexts cfg).
      { destruct (Z.gtb_spec (count + 1) (max_contexts cfg)); [discriminate|lia]. }
      replace (Z.to_nat (max_contexts cfg - count))
        with (S (Z.to_nat (max_contexts cfg - (count + 1)))) in Hc by lia.
      cbn [firstn] in Hc. unfold words_of at 1.
      destruct (SplitUTF8StringToWords U symbol_table fuel (Trim U c0) [])
        as [[b ws]|] eqn:Et; [|discriminate].
      destruct Hc as [<- | Hc].
      * unfold words_of. rewrite Et. discriminate.
      * destruct b; cbn [negb] in H; eapply IH; eassumption.
Qed.

(** X17: BuildContextGraph's loop returns exactly when the tokenizer
    returns on every phrase that is counted (within the size limit and
    within the max_contexts budget); a phrase that is skipped for its size
    or lies beyond the budget is never tokenized. *)
Theorem build_returns_iff_tokenizer_returns U cfg symbol_table fuel contexts :
  (exists ofst, BuildOfst U cfg symbol_table fuel contexts = Some ofst) <->
  (forall c, In c (counted cfg contexts) ->
             words_of U symbol_table fuel c <> None).
Proof.
  split.
  - intros (ofst & H) c Hc. unfold BuildOfst in H.
    eapply BuildLoop_returns_tokenized; [exact H|].
    rewrite Z.sub_0_r. exact Hc.
  - intros H. eexists. apply BuildOfst_refines. exact H.
Qed.

Lemma build_returns_iff_tokenizer_returns_witness :
  exists ofst,
    BuildOfst WenetUtils.utils (Examples.config 2 1) Examples.vocab 10
      [Examples.euro; "a"%string; Examples.euro] = Some ofst.
Proof.
  apply (proj2 (build_returns_iff_tokenizer_returns WenetUtils.utils
                  (Examples.config 2 1) Examples.vocab 10
                  [Examples.euro; "a"%string; Examples.euro])).
  intros c Hc. vm_compute in Hc. destruct Hc as [<- | []].
  vm_compute. discriminate.
Defined.
